(** * Go-AI-Agent: the turn loop and its four tools

    A shallow embedding of [pkg/tools/tools.go] and [pkg/agent/agent.go]
    together with the properties the specification states about them.

    Go strings are byte sequences: they are Rocq [string]s (a list of 8-bit
    [ascii]).  A Go [error] is represented by its message, the text that
    [err.Error()] returns, so [fmt.Errorf("...: %w", err)] is string
    concatenation.  A Go function returning [(T, error)] returns a
    [result T].  Code that touches the operating system threads the state
    it touches explicitly. *)

From Stdlib Require Import String Ascii List ZArith Bool Lia.
From stdpp Require Import base option gmap strings list pretty.

Local Open Scope Z_scope.
Local Open Scope stdpp_scope.

(* ===================================================================== *)
(** * Errors and results *)

Definition error := string.

Inductive result (A : Type) : Type :=
| Ok (a : A)
| Err (err : error).
Arguments Ok {A} a.
Arguments Err {A} err.

(* ===================================================================== *)
(** * Package strings: prefix test, Index, slicing, Replace *)

(** [s[:j]] *)
Fixpoint slice_to (j : nat) (s : string) : string :=
  match j, s with
  | O, _ => ""
  | S _, "" => ""
  | S j', String c s' => String c (slice_to j' s')
  end.

(** [s[j:]] *)
Fixpoint slice_from (j : nat) (s : string) : string :=
  match j, s with
  | O, _ => s
  | S _, "" => ""
  | S j', String _ s' => slice_from j' s'
  end.

(** [strings.HasPrefix(s, prefix)] *)
Fixpoint strings_HasPrefix (s prefix : string) : bool :=
  match prefix, s with
  | "", _ => true
  | String _ _, "" => false
  | String p prefix', String c s' =>
      if Ascii.eqb c p then strings_HasPrefix s' prefix' else false
  end.

(** [strings.Index(s, substr)]: the byte offset of the first instance of
    [substr] in [s]; Go's [-1] is [None].  The empty string is found at
    offset 0. *)
Fixpoint strings_Index (s substr : string) : option nat :=
  if strings_HasPrefix s substr then Some O
  else match s with
       | "" => None
       | String _ s' => option_map S (strings_Index s' substr)
       end.

(** [strings.Replace(s, old, new, 1)], the only way the tools call it.
    The library returns [s] itself when [old == new] or when [old] does not
    occur ([strings.Count(s, old) == 0]; the count of the empty string is
    never zero); otherwise it copies [s] up to the first match, then [new],
    then the rest of [s] after the match.  An empty [old] matches at
    offset 0. *)
Definition strings_Replace1 (s old new : string) : string :=
  if String.eqb old new then s
  else match strings_Index s old with
       | None => s
       | Some j =>
           slice_to j s +:+ new +:+ slice_from (j + String.length old) s
       end.

(** Every byte offset at which [old] occurs in [s], in increasing order
    (a specification device: the tools never compute it). *)
Fixpoint occurrences_from (i : nat) (s old : string) : list nat :=
  (if strings_HasPrefix s old then [i] else []) ++
  match s with
  | "" => []
  | String _ s' => occurrences_from (S i) s' old
  end.

Definition occurrences (s old : string) : list nat := occurrences_from O s old.

(* ===================================================================== *)
(** * The operating system as the tools see it *)

(** What [os.Lstat] finds at a path.  A regular file carries whether the
    process may read and write it, and its bytes.  A directory carries
    whether it can be listed and its entries, held in the order
    [filepath.Walk] visits them (it sorts the names). *)
#[warnings="-register-all"]
Inductive node : Type :=
| File (readable writable : bool) (content : string)
| Dir (listable : bool) (entries : list (string * node)).

Definition IsDir (info : node) : bool :=
  match info with Dir _ _ => true | File _ _ _ => false end.

(** The file system is viewed through the path strings handed to the
    operating system: a finite map from a path to what is found there.
    A path below a directory is a key of its own.  Two path strings that
    the operating system resolves to one file (through [.], [..], a
    doubled separator or a link) are two keys here, and nothing keeps
    what is found at them in step: no property below says what is found
    at a path other than the one a call was given. *)
Abbreviation FS := (gmap string node).

(** [os.ReadFile(name)] *)
Definition os_ReadFile (name : string) (fs : FS) : result string :=
  match fs !! name with
  | None => Err ("open " +:+ name +:+ ": no such file or directory")
  | Some (Dir _ _) => Err ("read " +:+ name +:+ ": is a directory")
  | Some (File readable _ content) =>
      if readable then Ok content
      else Err ("open " +:+ name +:+ ": permission denied")
  end.

(** [os.WriteFile(name, data, 0644)], as far as its opening of the file
    decides the outcome: an existing file that may be written gets the
    bytes [data] and keeps its mode, a missing file is created readable
    and writable, and a file that cannot be opened for writing is left
    as it was.  The write that follows the open is taken to succeed: a
    write that fails after the open has truncated the file (a full
    device, an input/output error) is outside this model, and so no
    property below says what a failed write leaves behind. *)
Definition os_WriteFile (name data : string) (fs : FS) : option error * FS :=
  match fs !! name with
  | None => (None, <[name := File true true data]> fs)
  | Some (Dir _ _) => (Some ("open " +:+ name +:+ ": is a directory"), fs)
  | Some (File readable writable _) =>
      if writable then (None, <[name := File readable writable data]> fs)
      else (Some ("open " +:+ name +:+ ": permission denied"), fs)
  end.

(** [exec.Cmd.Output] fails either with an [*exec.ExitError], which holds
    the exit code and the captured standard error of a process that ran,
    or with another error (the executable could not be started). *)
Inductive exec_error : Type :=
| ExitError (ExitCode : Z) (Stderr : string)
| OtherExecError (err : error).

(** The external process boundary: [exec.Command(name, args...).Output()]
    gives the standard output and the error of the run, which may depend
    on the files the process finds. *)
Class Exec := exec_Output : string -> list string -> FS -> string * option exec_error.

(* ===================================================================== *)
(** * Package path/filepath *)

(** [strings.CutPrefix(s, prefix)] *)
Fixpoint strings_CutPrefix (s prefix : string) : option string :=
  match prefix, s with
  | "", _ => Some s
  | String _ _, "" => None
  | String p prefix', String c s' =>
      if Ascii.eqb c p then strings_CutPrefix s' prefix' else None
  end.

(** [filepath.Join(dir, name)] and [filepath.Rel(basepath, targpath)] on
    path strings taken as they are: the model does no lexical cleaning
    (no removal of [.], [..] or doubled separators), so [Rel] relates a
    path only to itself and to the paths [Join] builds below it, which is
    every pair that [Walk] hands to its callback. *)
Definition filepath_Join (dir name : string) : string := dir +:+ "/" +:+ name.

Definition filepath_Rel (basepath targpath : string) : result string :=
  if String.eqb targpath basepath then Ok "."
  else match strings_CutPrefix targpath (basepath +:+ "/") with
       | Some rel => Ok rel
       | None =>
           Err ("Rel: can't make " +:+ targpath +:+ " relative to " +:+ basepath)
       end.

(** [filepath.Walk(root, fn)]: [fn] is called for the root and then, in
    pre-order, for everything below it.  The callback's captured
    variables are the state [S] it threads.  [info] is absent only when
    [os.Lstat] of the root failed, and then the error is present.  A
    directory that cannot be listed is still reported to [fn], with the
    error; the walk stops at the first error [fn] returns.  The
    [filepath.SkipDir] sentinel is not modelled: no callback here
    returns it. *)
Section Walk.
Context {S : Type}.

Definition WalkFunc : Type :=
  string -> option node -> option error -> S -> option error * S.

(** The [for _, name := range names] loop of the library's [walk]:
    [walk_child] walks one entry, and the first error ends the loop. *)
Section WalkNames.
Variable walk_child : string -> node -> S -> option error * S.

Fixpoint walk_names (names : list (string * node)) (s : S)
  : option error * S :=
  match names with
  | [] => (None, s)
  | (name, fileInfo) :: names' =>
      match walk_child name fileInfo s with
      | (Some err, s') => (Some err, s')
      | (None, s') => walk_names names' s'
      end
  end.
End WalkNames.

Variable walkFn : WalkFunc.

Fixpoint walk (path : string) (info : node) (s : S) : option error * S :=
  match info with
  | File _ _ _ => walkFn path (Some info) None s
  | Dir listable names =>
      let err :=
        if listable then None
        else Some ("open " +:+ path +:+ ": permission denied") in
      let '(err1, s1) := walkFn path (Some info) err s in
      match err, err1 with
      | None, None =>
          walk_names
            (fun name fileInfo => walk (filepath_Join path name) fileInfo)
            names s1
      | _, _ => (err1, s1)
      end
  end.

Definition filepath_Walk (root : string) (fs : FS) (s : S) : option error * S :=
  match fs !! root with
  | None =>
      walkFn root None
        (Some ("lstat " +:+ root +:+ ": no such file or directory")) s
  | Some info => walk root info s
  end.
End Walk.

(* ===================================================================== *)
(** * Package encoding/json *)

(** [json.RawMessage] is the bytes of a JSON value. *)
Definition RawMessage := string.

(** [json.Unmarshal(input, &v)] for a target of type [T], and
    [json.Marshal(v)].  The library is outside the repository: the tools
    are defined, and their properties proved, for every decoder and
    encoder. *)
Class Unmarshal (T : Type) := json_Unmarshal : RawMessage -> result T.
Class Marshal (T : Type) := json_Marshal : T -> result string.

(* ===================================================================== *)
(** * Package tools ([pkg/tools/tools.go]) *)

(** [anthropic.ToolInputSchemaParam]: the properties of a tool's input,
    each with its JSON name and its description. *)
Record ToolInputSchemaParam : Type := {
  Properties : list (string * string)
}.

(** A tool's function reads and writes files and runs processes: it is a
    state transformer on the file system. *)
Record ToolDefinition : Type := {
  Name : string;
  Description : string;
  InputSchema : ToolInputSchemaParam;
  Function : RawMessage -> FS -> result string * FS
}.

Record ReadFileInput : Type := {
  ReadFileInput_Path : string
}.

Record ListFilesInput : Type := {
  ListFilesInput_Path : string
}.

Record EditFileInput : Type := {
  EditFileInput_Path : string;
  EditFileInput_OldStr : string;
  EditFileInput_NewStr : string
}.

(** [MaxCount] is a Go [int]. *)
Record RipGrepInput : Type := {
  RipGrepInput_Query : string;
  RipGrepInput_Path : string;
  RipGrepInput_IgnoreCase : bool;
  RipGrepInput_MaxCount : Z
}.

(** [GenerateSchema[T]()] reflects on the struct tags of [T]; the schemas
    are written out per input type. *)
Definition ReadFileInputSchema : ToolInputSchemaParam :=
  {| Properties :=
       [("path", "The relative path of a file in the working directory.")] |}.

Definition ListFilesInputSchema : ToolInputSchemaParam :=
  {| Properties :=
       [("path", "Optional relative path to list files from. Defaults to current directory if not provided.")] |}.

Definition EditFileInputSchema : ToolInputSchemaParam :=
  {| Properties :=
       [("path", "The path to the file");
        ("old_str", "Text to search for - must match exactly and must only have one match exactly");
        ("new_str", "Text to replace old_str with")] |}.

Definition RipGrepInputSchema : ToolInputSchemaParam :=
  {| Properties :=
       [("query", "The ripgrep compatible regex pattern to search for.");
        ("path", "Optional file or directory path to search within. Defaults to current directory if empty.");
        ("ignore_case", "Perform case-insensitive search.");
        ("max_count", "Limit the number of matches per file.")] |}.

(** The closure that [ListFiles] passes to [filepath.Walk]; the captured
    slice [files] is its state.  [info.IsDir()] is reached only when
    [err] is nil, where [info] is present. *)
Definition ListFiles_walkFn (dir : string) : WalkFunc (S := list string) :=
  fun path info err files =>
    match err with
    | Some err => (Some err, files)
    | None =>
        match filepath_Rel dir path with
        | Err err =>
            (Some ("failed to get relative path for " +:+ path +:+ ": " +:+ err),
             files)
        | Ok relPath =>
            if negb (String.eqb relPath ".") then
              if from_option IsDir false info
              then (None, files ++ [relPath +:+ "/"])
              else (None, files ++ [relPath])
            else (None, files)
        end
    end.

Section Tools.
Context {unmarshal_ReadFileInput : Unmarshal ReadFileInput}.
Context {unmarshal_ListFilesInput : Unmarshal ListFilesInput}.
Context {unmarshal_EditFileInput : Unmarshal EditFileInput}.
Context {unmarshal_RipGrepInput : Unmarshal RipGrepInput}.
Context {marshal_strings : Marshal (list string)}.
Context {exec : Exec}.

Definition ReadFile (input : RawMessage) (fs : FS) : result string * FS :=
  match json_Unmarshal input with
  | Err err => (Err ("invalid input format for read_file: " +:+ err), fs)
  | Ok readFileInput =>
      match os_ReadFile (ReadFileInput_Path readFileInput) fs with
      | Err err =>
          (Err ("failed to read file '" +:+ ReadFileInput_Path readFileInput
                +:+ "': " +:+ err), fs)
      | Ok content => (Ok content, fs)
      end
  end.

Definition ReadFileDefinition : ToolDefinition :=
  {| Name := "read_file";
     Description := "Read the contents of a given relative file path. Use this when you want to see what's inside a file. Do not use this with directory names.";
     InputSchema := ReadFileInputSchema;
     Function := ReadFile |}.

Definition ListFiles (input : RawMessage) (fs : FS) : result string * FS :=
  match json_Unmarshal input with
  | Err err => (Err ("invalid input format for list_files: " +:+ err), fs)
  | Ok listFilesInput =>
      let dir :=
        if negb (String.eqb (ListFilesInput_Path listFilesInput) "")
        then ListFilesInput_Path listFilesInput
        else "." in
      match filepath_Walk (ListFiles_walkFn dir) dir fs [] with
      | (Some err, _) =>
          (Err ("failed to list files in '" +:+ dir +:+ "': " +:+ err), fs)
      | (None, files) =>
          match json_Marshal files with
          | Err err => (Err ("failed to marshal file list: " +:+ err), fs)
          | Ok result => (Ok result, fs)
          end
      end
  end.

Definition ListFilesDefinition : ToolDefinition :=
  {| Name := "list_files";
     Description := "List files and directories at a given path. If no path is provided, lists files in the current directory.";
     InputSchema := ListFilesInputSchema;
     Function := ListFiles |}.

Definition EditFile (input : RawMessage) (fs : FS) : result string * FS :=
  match json_Unmarshal input with
  | Err err => (Err ("invalid input format for edit_file: " +:+ err), fs)
  | Ok editFileInput =>
      let path := EditFileInput_Path editFileInput in
      match os_ReadFile path fs with
      | Err err =>
          (Err ("failed to read file '" +:+ path +:+ "' for editing: " +:+ err),
           fs)
      | Ok contentStr =>
          let newContentStr :=
            strings_Replace1 contentStr (EditFileInput_OldStr editFileInput)
              (EditFileInput_NewStr editFileInput) in
          if String.eqb newContentStr contentStr then
            (Err ("string '" +:+ EditFileInput_OldStr editFileInput
                  +:+ "' not found in file '" +:+ path +:+ "'"), fs)
          else
            match os_WriteFile path newContentStr fs with
            | (Some err, fs') =>
                (Err ("failed to write changes to file '" +:+ path +:+ "': "
                      +:+ err), fs')
            | (None, fs') => (Ok "File edited successfully", fs')
            end
      end
  end.

Definition EditFileDefinition : ToolDefinition :=
  {| Name := "edit_file";
     Description := "Edit a file by replacing a specific string with another string. The old string must match exactly and must only have one match in the file.";
     InputSchema := EditFileInputSchema;
     Function := EditFile |}.

(** The argument list [RipGrepSearch] builds for [rg]. *)
Definition RipGrepSearch_args (rgInput : RipGrepInput) : list string :=
  let args := ["--no-heading"; "--with-filename"; "--line-number"] in
  let args :=
    if RipGrepInput_IgnoreCase rgInput then args ++ ["--ignore-case"] else args in
  let args :=
    if 0 <? RipGrepInput_MaxCount rgInput
    then args ++ ["--max-count=" +:+ pretty (RipGrepInput_MaxCount rgInput)]
    else args in
  let args := args ++ ["--"; RipGrepInput_Query rgInput] in
  if negb (String.eqb (RipGrepInput_Path rgInput) "")
  then args ++ [RipGrepInput_Path rgInput]
  else args ++ ["."].

Definition RipGrepSearch (input : RawMessage) (fs : FS) : result string * FS :=
  match json_Unmarshal input with
  | Err err => (Err ("invalid input format for ripgrep_search: " +:+ err), fs)
  | Ok rgInput =>
      let args := RipGrepSearch_args rgInput in
      let '(out, err) := exec_Output "rg" args fs in
      match err with
      | Some (ExitError ExitCode Stderr) =>
          if ExitCode =? 1 then (Ok "No matches found.", fs)
          else if negb (String.eqb Stderr "") then
            (Err ("ripgrep failed with exit code " +:+ pretty ExitCode +:+ ": "
                  +:+ Stderr), fs)
          else (Err ("ripgrep failed with exit code " +:+ pretty ExitCode), fs)
      | Some (OtherExecError err) =>
          (Err ("failed to execute ripgrep: " +:+ err), fs)
      | None =>
          if (String.length out =? 0)%nat then (Ok "No matches found.", fs)
          else (Ok out, fs)
      end
  end.

Definition RipGrepToolDefinition : ToolDefinition :=
  {| Name := "ripgrep_search";
     Description := "Search for a regex pattern in files using ripgrep. Provides filename and line number for matches.";
     InputSchema := RipGrepInputSchema;
     Function := RipGrepSearch |}.

Definition GetTools : list ToolDefinition :=
  [ReadFileDefinition; ListFilesDefinition; EditFileDefinition;
   RipGrepToolDefinition].

End Tools.

(* ===================================================================== *)
(** * The SDK's message types *)

(** [anthropic.ContentBlockUnion], a block of a model response: a
    flattened union whose [Type] field says which of the other fields
    are meaningful. *)
Record ContentBlockUnion : Type := {
  cb_Type : string;
  cb_Text : string;
  cb_ID : string;
  cb_Name : string;
  cb_Input : RawMessage
}.

(** [anthropic.Message], the model's response. *)
Record Message : Type := {
  Content : list ContentBlockUnion
}.

(** [anthropic.ContentBlockParamUnion], a block of a request message. *)
Inductive ContentBlockParamUnion : Type :=
| TextBlockParam (Text : string)
| ToolUseBlockParam (ID Name : string) (Input : RawMessage)
| ToolResultBlockParam (ToolUseID Content : string) (IsError : bool)
| OtherBlockParam (Type_ : string).

(** [anthropic.MessageParam], one message of the conversation. *)
Record MessageParam : Type := {
  mp_Role : string;
  mp_Content : list ContentBlockParamUnion
}.

Definition NewTextBlock (text : string) : ContentBlockParamUnion :=
  TextBlockParam text.

Definition NewToolResultBlock (toolUseID content : string) (isError : bool)
  : ContentBlockParamUnion :=
  ToolResultBlockParam toolUseID content isError.

Definition NewUserMessage (blocks : list ContentBlockParamUnion) : MessageParam :=
  {| mp_Role := "user"; mp_Content := blocks |}.

Definition ContentBlock_ToParam (content : ContentBlockUnion)
  : ContentBlockParamUnion :=
  if String.eqb (cb_Type content) "text" then TextBlockParam (cb_Text content)
  else if String.eqb (cb_Type content) "tool_use" then
    ToolUseBlockParam (cb_ID content) (cb_Name content) (cb_Input content)
  else OtherBlockParam (cb_Type content).

(** [message.ToParam()] *)
Definition Message_ToParam (message : Message) : MessageParam :=
  {| mp_Role := "assistant";
     mp_Content := map ContentBlock_ToParam (Content message) |}.

(* ===================================================================== *)
(** * Package agent ([pkg/agent/agent.go]) *)

(** What a run does at its boundaries, in the order it does it: what it
    prints and logs, and each call of the inference client with the
    conversation it sends. *)
Inductive event : Type :=
| EvBanner                                           (* Chat with Claude ... *)
| EvPrompt                                           (* You: *)
| EvInference (conversation : list MessageParam)     (* a.runInference(...) *)
| EvClaude (text : string)                           (* Claude: text *)
| EvToolRequest (name : string) (input : RawMessage) (* tool: requesting *)
| EvToolNotFound (name : string)                     (* Error: tool not found *)
| EvToolError (name : string) (err : error)          (* Error executing tool *)
| EvToolResult (name response : string).             (* tool: result *)

(** The state a run acts on: the file system, the lines still to be read
    from standard input (each without the newline that ends it), and the
    events so far. *)
Record World : Type := {
  w_fs : FS;
  w_stdin : list string;
  w_trace : list event
}.

(** Stateful code is a function from the world to a value and the world
    after. *)
Definition M (A : Type) : Type := World -> A * World.

Definition ret {A} (a : A) : M A := fun w => (a, w).

Definition bind {A B} (m : M A) (k : A -> M B) : M B :=
  fun w => let '(a, w') := m w in k a w'.

Notation "x <- m ;; k" := (bind m (fun x => k))
  (at level 100, m at next level, right associativity).
Notation "m ;;; k" := (bind m (fun _ => k))
  (at level 100, right associativity).

Definition emit (e : event) : M unit :=
  fun w =>
    (tt, {| w_fs := w_fs w; w_stdin := w_stdin w;
            w_trace := w_trace w ++ [e] |}).

(** Runs a tool's function on the world's file system. *)
Definition call_Function (f : FS -> result string * FS) : M (result string) :=
  fun w =>
    let '(r, fs') := f (w_fs w) in
    (r, {| w_fs := fs'; w_stdin := w_stdin w; w_trace := w_trace w |}).

Definition MessageHandler : Type := M (string * bool).

(** Modelled from the spec: [anthropic.Client] and [Agent.runInference]
    ([pkg/agent/inference.go]) are not among the sources.  The inference
    client is a synchronous request/response boundary that neither
    inspects nor mutates the conversation and either returns the model's
    next message or fails: the client is the function from the
    conversation sent to that outcome. *)
Definition Client : Type := list MessageParam -> result Message.

Record Agent : Type := {
  client : Client;
  getUserMessage : MessageHandler;
  tools : list ToolDefinition
}.

Definition NewAgent (client : Client) (getUserMessage : MessageHandler)
  (tools : list ToolDefinition) : Agent :=
  {| client := client; getUserMessage := getUserMessage; tools := tools |}.

(** Modelled from the spec: see [Client]. *)
Definition runInference (a : Agent) (conversation : list MessageParam)
  : result Message :=
  client a conversation.

(** The scan of [executeTool] over [a.tools]: the first tool of that
    name. *)
Fixpoint lookup_tool (tools : list ToolDefinition) (name : string)
  : option ToolDefinition :=
  match tools with
  | [] => None
  | tool :: tools' =>
      if String.eqb (Name tool) name then Some tool
      else lookup_tool tools' name
  end.

Definition executeTool (a : Agent) (id name : string) (input : RawMessage)
  : M ContentBlockParamUnion :=
  match lookup_tool (tools a) name with
  | None =>
      emit (EvToolNotFound name) ;;;
      ret (NewToolResultBlock id "tool not found" true)
  | Some toolDef =>
      r <- call_Function (Function toolDef input) ;;
      match r with
      | Err err =>
          emit (EvToolError name err) ;;;
          ret (NewToolResultBlock id err true)
      | Ok response =>
          emit (EvToolResult name response) ;;;
          ret (NewToolResultBlock id response false)
      end
  end.

(** The [for _, content := range message.Content] loop of [Run]. *)
Fixpoint range_Content (a : Agent) (contents : list ContentBlockUnion)
  (toolResults : list ContentBlockParamUnion)
  : M (list ContentBlockParamUnion) :=
  match contents with
  | [] => ret toolResults
  | content :: contents' =>
      if String.eqb (cb_Type content) "text" then
        emit (EvClaude (cb_Text content)) ;;;
        range_Content a contents' toolResults
      else if String.eqb (cb_Type content) "tool_use" then
        emit (EvToolRequest (cb_Name content) (cb_Input content)) ;;;
        result <- executeTool a (cb_ID content) (cb_Name content)
                    (cb_Input content) ;;
        range_Content a contents' (toolResults ++ [result])
      else range_Content a contents' toolResults
  end.

(** The variables of [Run] that live across iterations of its loop. *)
Record loop_state : Type := {
  conversation : list MessageParam;
  readUserInput : bool
}.

(** How one iteration of the loop of [Run] ends: [break], [return err],
    or the end of the body (also through [continue]). *)
Inductive iteration_end : Type :=
| Break
| Return (err : error)
| Next (st : loop_state).

(** The first phase of an iteration (awaiting user input): the
    conversation to send, or nothing when the input has ended. *)
Definition await_user_input (a : Agent) (st : loop_state)
  : M (option (list MessageParam)) :=
  if readUserInput st then
    emit EvPrompt ;;;
    input <- getUserMessage a ;;
    let '(userInput, ok) := input in
    if negb ok then ret None
    else
      let userMessage := NewUserMessage [NewTextBlock userInput] in
      ret (Some (conversation st ++ [userMessage]))
  else ret (Some (conversation st)).

(** The second phase (awaiting the model's response), from the call of
    [runInference] to the end of the loop body. *)
Definition await_model_response (a : Agent) (conversation : list MessageParam)
  : M iteration_end :=
  emit (EvInference conversation) ;;;
  match runInference a conversation with
  | Err err => ret (Return ("error running inference: " +:+ err))
  | Ok message =>
      let conversation := conversation ++ [Message_ToParam message] in
      toolResults <- range_Content a (Content message) [] ;;
      if (length toolResults =? 0)%nat then
        ret (Next {| conversation := conversation; readUserInput := true |})
      else
        ret (Next {| conversation :=
                       conversation ++ [NewUserMessage toolResults];
                     readUserInput := false |})
  end.

(** One iteration of the loop of [Run]. *)
Definition iteration (a : Agent) (st : loop_state) : M iteration_end :=
  read <- await_user_input a st ;;
  match read with
  | None => ret Break
  | Some conversation => await_model_response a conversation
  end.

(** What [Run] has come to: it returned ([nil] or an error), or its loop
    is still going after the iterations allowed. *)
Inductive run_result : Type :=
| Returned (err : option error)
| Running (st : loop_state).

Fixpoint loop (fuel : nat) (a : Agent) (st : loop_state) : M run_result :=
  match fuel with
  | O => ret (Running st)
  | S fuel' =>
      r <- iteration a st ;;
      match r with
      | Break => ret (Returned None)
      | Return err => ret (Returned (Some err))
      | Next st' => loop fuel' a st'
      end
  end.

(** [Agent.Run], for at most [fuel] iterations of its loop. *)
Definition Run (fuel : nat) (a : Agent) : M run_result :=
  emit EvBanner ;;;
  loop fuel a {| conversation := []; readUserInput := true |}.

(** [bufio.MaxScanTokenSize]: the size of the largest buffer of a
    [bufio.Scanner], which has to hold a line and the newline after it. *)
Definition bufio_MaxScanTokenSize : Z := 64 * 1024.

(** [dropCR] of [bufio.ScanLines]: a line loses one carriage return at
    its end. *)
Fixpoint bufio_dropCR (data : string) : string :=
  match data with
  | "" => ""
  | String c "" => if Ascii.eqb c "013" then "" else String c ""
  | String c data' => String c (bufio_dropCR data')
  end.

(** The [getUserMessage] closure of [main]: [scanner.Scan()] and then
    [scanner.Text()].  The scanner delivers the next line of standard
    input when the line fits its buffer; it has nothing to deliver at
    the end of the input, and it gives up, for good, at a line that does
    not fit.  In both cases the closure returns [("", false)]. *)
Definition main_getUserMessage : MessageHandler :=
  fun w =>
    match w_stdin w with
    | [] => (("", false), w)
    | line :: rest =>
        if Z.of_nat (String.length line) <? bufio_MaxScanTokenSize then
          ((bufio_dropCR line, true),
           {| w_fs := w_fs w; w_stdin := rest; w_trace := w_trace w |})
        else (("", false), w)
    end.

(* ===================================================================== *)
(** * Vocabulary of the properties *)

(** The [tool_use] blocks of a response, in the order they appear. *)
Definition is_tool_use (content : ContentBlockUnion) : bool :=
  String.eqb (cb_Type content) "tool_use".

Definition tool_uses (message : Message) : list ContentBlockUnion :=
  List.filter is_tool_use (Content message).

(** A result block answers a [tool_use] block when it carries its
    identifier. *)
Definition answers (result : ContentBlockParamUnion) (content : ContentBlockUnion)
  : Prop :=
  exists text isError, result = ToolResultBlockParam (cb_ID content) text isError.

(** Dispatching a list of [tool_use] blocks one after the other, each on
    the file system the one before left. *)
Fixpoint dispatch_in_order (a : Agent) (uses : list ContentBlockUnion)
  : M (list ContentBlockParamUnion) :=
  match uses with
  | [] => ret []
  | content :: uses' =>
      result <- executeTool a (cb_ID content) (cb_Name content)
                  (cb_Input content) ;;
      results <- dispatch_in_order a uses' ;;
      ret (result :: results)
  end.

(** The result blocks for the [tool_use] blocks of a response. *)
Definition tool_results (a : Agent) (message : Message) (w : World)
  : list ContentBlockParamUnion :=
  fst (dispatch_in_order a (tool_uses message) w).

(** The tool requests of a trace, in order: the name and the input of
    each. *)
Fixpoint tool_requests (trace : list event) : list (string * RawMessage) :=
  match trace with
  | [] => []
  | EvToolRequest name input :: trace' => (name, input) :: tool_requests trace'
  | _ :: trace' => tool_requests trace'
  end.

Definition request_of (content : ContentBlockUnion) : string * RawMessage :=
  (cb_Name content, cb_Input content).

(** Two worlds that differ at most in their traces. *)
Definition same_files (w1 w2 : World) : Prop :=
  w_fs w1 = w_fs w2 /\ w_stdin w1 = w_stdin w2.

(** The same agent with another source of user input. *)
Definition with_getUserMessage (a : Agent) (h : MessageHandler) : Agent :=
  {| client := client a; getUserMessage := h; tools := tools a |}.

(** A name the operating system can give to a directory entry. *)
Fixpoint has_separator (name : string) : bool :=
  match name with
  | "" => false
  | String c name' => Ascii.eqb c "/" || has_separator name'
  end.

Definition valid_name (name : string) : bool :=
  negb (String.eqb name "") && negb (String.eqb name ".")
  && negb (String.eqb name "..") && negb (has_separator name).

(** Every entry below has a valid name. *)
Fixpoint well_named (n : node) : bool :=
  match n with
  | File _ _ _ => true
  | Dir _ names =>
      forallb (fun entry => valid_name (fst entry) && well_named (snd entry))
        names
  end.

(** Every directory, from this one down, can be listed. *)
Fixpoint traversable (n : node) : bool :=
  match n with
  | File _ _ _ => true
  | Dir listable names =>
      listable && forallb (fun entry => traversable (snd entry)) names
  end.

(** [reachable root rel n]: going down from the directory [root] through
    the names [rel], one finds [n]. *)
Inductive reachable : node -> list string -> node -> Prop :=
| reachable_entry listable names name n :
    In (name, n) names ->
    reachable (Dir listable names) [name] n
| reachable_below listable names name d rel n :
    In (name, d) names ->
    reachable d rel n ->
    reachable (Dir listable names) (name :: rel) n.

(** The name under which an entry is listed: its relative path, and a
    trailing separator exactly when it is a directory. *)
Definition entry_name (rel : list string) (n : node) : string :=
  if IsDir n then String.concat "/" rel +:+ "/" else String.concat "/" rel.

(** The entries below [n] in pre-order, [n] being found at [rel]. *)
Fixpoint listing (rel : list string) (n : node) : list string :=
  match n with
  | File _ _ _ => []
  | Dir _ names =>
      flat_map
        (fun entry =>
           entry_name (rel ++ [fst entry]) (snd entry)
           :: listing (rel ++ [fst entry]) (snd entry))
        names
  end.

(** What the callback of [ListFiles] adds for the entry at [rel]: the
    root itself, at the empty [rel], is not listed. *)
Definition own_entry (rel : list string) (n : node) : list string :=
  match rel with
  | [] => []
  | _ :: _ => [entry_name rel n]
  end.

(** The path [filepath.Walk] builds for the entry found at [rel] below
    [root]. *)
Definition walk_path (root : string) (rel : list string) : string :=
  fold_left filepath_Join rel root.

(** What [ListFiles] returns for the slice [files] it collected. *)
Definition ListFiles_result `{Marshal (list string)} (files : list string)
  : result string :=
  match json_Marshal files with
  | Err err => Err ("failed to marshal file list: " +:+ err)
  | Ok result => Ok result
  end.

(** The error, if any, of decoding [input] into the input type of the
    tool called [name]. *)
Definition decode_error
  {unmarshal_ReadFileInput : Unmarshal ReadFileInput}
  {unmarshal_ListFilesInput : Unmarshal ListFilesInput}
  {unmarshal_EditFileInput : Unmarshal EditFileInput}
  {unmarshal_RipGrepInput : Unmarshal RipGrepInput}
  (name : string) (input : RawMessage) : option error :=
  let error_of {T} (r : result T) : option error :=
    match r with Ok _ => None | Err err => Some err end in
  if String.eqb name "read_file" then
    error_of (json_Unmarshal (T := ReadFileInput) input)
  else if String.eqb name "list_files" then
    error_of (json_Unmarshal (T := ListFilesInput) input)
  else if String.eqb name "edit_file" then
    error_of (json_Unmarshal (T := EditFileInput) input)
  else if String.eqb name "ripgrep_search" then
    error_of (json_Unmarshal (T := RipGrepInput) input)
  else None.

(* ===================================================================== *)
(** * Sample data: a small decoder, a file system, a scripted model *)

Module Sample.

Definition dquote : ascii := "034"%char.

Definition quote (s : string) : string :=
  String dquote (s +:+ String dquote "").

(** The text of a JSON object whose members are strings. *)
Definition object (members : list (string * string)) : RawMessage :=
  "{" +:+ String.concat ","
            (map (fun m => quote (fst m) +:+ ":" +:+ quote (snd m)) members)
  +:+ "}".

Definition edit_input (path old new : string) : RawMessage :=
  object [("path", path); ("old_str", old); ("new_str", new)].

Fixpoint split_on (sep : ascii) (s : string) : list string :=
  match s with
  | "" => [""]
  | String c s' =>
      if Ascii.eqb c sep then "" :: split_on sep s'
      else match split_on sep s' with
           | piece :: pieces => String c piece :: pieces
           | [] => [String c ""]
           end
  end.

Fixpoint parse_members (pieces : list string) : option (list (string * string)) :=
  match pieces with
  | key :: colon :: value :: sep :: pieces' =>
      if String.eqb colon ":" then
        if String.eqb sep "}" then
          match pieces' with [] => Some [(key, value)] | _ => None end
        else if String.eqb sep "," then
          option_map (cons (key, value)) (parse_members pieces')
        else None
      else None
  | _ => None
  end.

(** A decoder for the objects [object] writes (no escapes, no white
    space, string members only). *)
Definition parse_object (raw : RawMessage) : result (list (string * string)) :=
  match split_on dquote raw with
  | ["{}"] => Ok []
  | "{" :: pieces =>
      match parse_members pieces with
      | Some members => Ok members
      | None => Err "invalid character in object"
      end
  | _ => Err "json: cannot unmarshal into Go value"
  end.

Fixpoint member (key : string) (members : list (string * string)) : string :=
  match members with
  | [] => ""
  | (k, v) :: members' => if String.eqb k key then v else member key members'
  end.

Definition unmarshal_ReadFileInput : Unmarshal ReadFileInput :=
  fun raw =>
    match parse_object raw with
    | Err err => Err err
    | Ok ms => Ok {| ReadFileInput_Path := member "path" ms |}
    end.

Definition unmarshal_ListFilesInput : Unmarshal ListFilesInput :=
  fun raw =>
    match parse_object raw with
    | Err err => Err err
    | Ok ms => Ok {| ListFilesInput_Path := member "path" ms |}
    end.

Definition unmarshal_EditFileInput : Unmarshal EditFileInput :=
  fun raw =>
    match parse_object raw with
    | Err err => Err err
    | Ok ms =>
        Ok {| EditFileInput_Path := member "path" ms;
              EditFileInput_OldStr := member "old_str" ms;
              EditFileInput_NewStr := member "new_str" ms |}
    end.

Definition unmarshal_RipGrepInput : Unmarshal RipGrepInput :=
  fun raw =>
    match parse_object raw with
    | Err err => Err err
    | Ok ms =>
        Ok {| RipGrepInput_Query := member "query" ms;
              RipGrepInput_Path := member "path" ms;
              RipGrepInput_IgnoreCase := false;
              RipGrepInput_MaxCount := 0 |}
    end.

Definition marshal_strings : Marshal (list string) :=
  fun files =>
    match files with
    | [] => Ok "null"
    | _ => Ok ("[" +:+ String.concat "," (map quote files) +:+ "]")
    end.

(** A stand-in for [rg]: no match for the query [needle], a usage error
    for the query [(], one matching line otherwise. *)
Definition exec : Exec :=
  fun name args fs =>
    if existsb (String.eqb "needle") args then ("", Some (ExitError 1 ""))
    else if existsb (String.eqb "(") args then
      ("", Some (ExitError 2 "regex parse error: unclosed group"))
    else if existsb (String.eqb "quiet") args then
      ("", Some (ExitError 2 ""))
    else ("notes.txt:1:hello world", None).

Definition project : node :=
  Dir true [("a.txt", File true true "alpha");
            ("sub", Dir true [("b.txt", File true true "beta")])].

Definition fs : FS :=
  list_to_map
    [("notes.txt", File true true "hello world");
     ("locked.txt", File true false "hello world");
     ("project", project)].

Definition GetTools : list ToolDefinition :=
  @GetTools unmarshal_ReadFileInput unmarshal_ListFilesInput
    unmarshal_EditFileInput unmarshal_RipGrepInput marshal_strings exec.

Definition text_block (text : string) : ContentBlockUnion :=
  {| cb_Type := "text"; cb_Text := text; cb_ID := ""; cb_Name := "";
     cb_Input := "" |}.

Definition tool_use_block (id name : string) (input : RawMessage)
  : ContentBlockUnion :=
  {| cb_Type := "tool_use"; cb_Text := ""; cb_ID := id; cb_Name := name;
     cb_Input := input |}.

(** The first response of the scripted model: a text and two tool
    calls, the second for a tool that does not exist. *)
Definition first_response : Message :=
  {| Content :=
       [text_block "Let me look.";
        tool_use_block "toolu_1" "read_file" (object [("path", "notes.txt")]);
        tool_use_block "toolu_2" "delete_file" (object [("path", "notes.txt")])] |}.

Definition second_response : Message :=
  {| Content := [text_block "The file says hello world."] |}.

(** A scripted model: it answers the first request with
    [first_response], the request that carries the tool results with
    [second_response], and fails on any other. *)
Definition client : Client :=
  fun conversation =>
    match length conversation with
    | 1%nat => Ok first_response
    | 3%nat => Ok second_response
    | _ => Err "overloaded"
    end.

Definition agent : Agent := NewAgent client main_getUserMessage GetTools.

Definition world : World :=
  {| w_fs := fs; w_stdin := ["what is in notes.txt?"]; w_trace := [] |}.

Definition greeting : list MessageParam :=
  [NewUserMessage [NewTextBlock "what is in notes.txt?"]].

End Sample.

(* ===================================================================== *)
(** * The program ([cmd/agent/main.go]) *)

(** How [main] ends: [log.Fatal] stops the process; otherwise [main]
    returns, having logged the error of the run if there was one; or the
    loop of [Run] is still going after the iterations allowed. *)
Inductive main_end : Type :=
| Fatal (msg : string)
| Exited (logged : option string)
| StillRunning (st : loop_state).

Section Main.
Context {unmarshal_ReadFileInput : Unmarshal ReadFileInput}.
Context {unmarshal_ListFilesInput : Unmarshal ListFilesInput}.
Context {unmarshal_EditFileInput : Unmarshal EditFileInput}.
Context {unmarshal_RipGrepInput : Unmarshal RipGrepInput}.
Context {marshal_strings : Marshal (list string)}.
Context {exec : Exec}.

(** [main], given the environment ([os.Getenv], which gives the empty
    string for an unset variable) and the SDK's constructor of a client
    from an API key ([anthropic.NewClient(option.WithAPIKey(apiKey))]). *)
Definition main (os_Getenv : string -> string)
  (anthropic_NewClient : string -> Client) (fuel : nat) : M main_end :=
  let apiKey := os_Getenv "ANTHROPIC_API_KEY" in
  if String.eqb apiKey "" then
    ret (Fatal "Error: ANTHROPIC_API_KEY environment variable not set.")
  else
    let client := anthropic_NewClient apiKey in
    let agentInstance := NewAgent client main_getUserMessage GetTools in
    r <- Run fuel agentInstance ;;
    match r with
    | Returned None => ret (Exited None)
    | Returned (Some err) =>
        ret (Exited (Some ("Agent exited with error: " +:+ err)))
    | Running st => ret (StillRunning st)
    end.

End Main.

(* ===================================================================== *)
(** * More vocabulary *)

(** The roles of a conversation alternate, the first being [user] when
    [user_next] holds and [assistant] otherwise. *)
Fixpoint alternates (user_next : bool) (messages : list MessageParam) : bool :=
  match messages with
  | [] => true
  | message :: messages' =>
      String.eqb (mp_Role message) (if user_next then "user" else "assistant")
      && alternates (negb user_next) messages'
  end.

(** What the loop of [Run] keeps true of its variables: the roles of
    the conversation alternate from [user] on, and the user is asked
    next exactly when the conversation is empty or ends with a message
    of the assistant. *)
Definition turn_invariant (st : loop_state) : Prop :=
  alternates true (conversation st) = true /\
  readUserInput st = Nat.even (length (conversation st)).

(** The conversations a trace shows sent to the model, in order. *)
Fixpoint sent_conversations (trace : list event) : list (list MessageParam) :=
  match trace with
  | [] => []
  | EvInference sent :: trace' => sent :: sent_conversations trace'
  | _ :: trace' => sent_conversations trace'
  end.

(** A conversation the model can be asked to continue: its roles
    alternate from [user] on and its last message is the user's. *)
Definition awaits_assistant (sent : list MessageParam) : Prop :=
  alternates true sent = true /\ Nat.odd (length sent) = true.

(** [strings.HasSuffix(s, "/")] *)
Fixpoint ends_with_separator (s : string) : bool :=
  match s with
  | "" => false
  | String c "" => Ascii.eqb c "/"
  | String _ s' => ends_with_separator s'
  end.

(** No name occurs twice in a list of names. *)
Fixpoint distinct (names : list string) : bool :=
  match names with
  | [] => true
  | name :: names' =>
      negb (existsb (String.eqb name) names') && distinct names'
  end.

(** In every directory, from this one down, the entries have distinct
    names. *)
Fixpoint distinct_names (n : node) : bool :=
  match n with
  | File _ _ _ => true
  | Dir _ names =>
      distinct (map fst names)
      && forallb (fun entry => distinct_names (snd entry)) names
  end.

(** The texts of the model that a trace shows, in order. *)
Fixpoint shown_texts (trace : list event) : list string :=
  match trace with
  | [] => []
  | EvClaude text :: trace' => text :: shown_texts trace'
  | _ :: trace' => shown_texts trace'
  end.

(** The texts of the [text] blocks of a response, in order. *)
Definition texts (message : Message) : list string :=
  map cb_Text
    (List.filter (fun content => String.eqb (cb_Type content) "text")
       (Content message)).

(** What the program logs while it works through a response of the
    model: a text of the model, a tool request, or the outcome of a
    tool call.  The banner, the prompt for the user and the inference
    calls are not among them. *)
Definition response_event (e : event) : bool :=
  match e with
  | EvClaude _ | EvToolRequest _ _ | EvToolNotFound _
  | EvToolError _ _ | EvToolResult _ _ => true
  | EvBanner | EvPrompt | EvInference _ => false
  end.

(** What [Run] goes on to after an iteration of its loop that ended as
    [ended]: it returns, or it runs the loop from the state the
    iteration left, for at most [fuel] iterations more. *)
Definition loop_after (fuel : nat) (a : Agent)
  (ended : iteration_end * World) : run_result * World :=
  match fst ended with
  | Break => (Returned None, snd ended)
  | Return err => (Returned (Some err), snd ended)
  | Next st => loop fuel a st (snd ended)
  end.

(** A line the scanner of [main] delivers. *)
Definition fits_scanner (line : string) : Prop :=
  Z.of_nat (String.length line) < bufio_MaxScanTokenSize.

(** What is left of the input when the scanner of [main] delivers no
    line: nothing, or a line that does not fit the scanner. *)
Definition scanner_stops (stdin : list string) : Prop :=
  match stdin with
  | [] => True
  | line :: _ => ~ fits_scanner line
  end.

(** The path string [ListFiles] walks for a decoded input. *)
Definition ListFiles_dir (listFilesInput : ListFilesInput) : string :=
  if negb (String.eqb (ListFilesInput_Path listFilesInput) "")
  then ListFilesInput_Path listFilesInput
  else ".".

(** The options [RipGrepSearch] may put before the [--] that ends
    them. *)
Definition RipGrepSearch_flags (rgInput : RipGrepInput) : list string :=
  ["--no-heading"; "--with-filename"; "--line-number"]
  ++ (if RipGrepInput_IgnoreCase rgInput then ["--ignore-case"] else [])
  ++ (if 0 <? RipGrepInput_MaxCount rgInput
      then ["--max-count=" +:+ pretty (RipGrepInput_MaxCount rgInput)]
      else []).

(** More sample data: a model that never asks for a tool, and an
    environment with and without the API key. *)
Module Sample_more.

Definition talker : Client := fun _ => Ok Sample.second_response.

Definition talking_agent : Agent :=
  NewAgent talker main_getUserMessage Sample.GetTools.

Definition two_lines : World :=
  {| w_fs := Sample.fs; w_stdin := ["hello"; "thanks"]; w_trace := [] |}.

Definition env_with_key (name : string) : string :=
  if String.eqb name "ANTHROPIC_API_KEY" then "sk-test" else "".

Definition env_without_key (name : string) : string := "".

Definition failing_client : Client := fun _ => Err "status 529".

Definition read_input (path : string) : RawMessage :=
  Sample.object [("path", path)].

(** A line of 64 KiB, and an input with it as its second line. *)
Definition long_line : string :=
  string_of_list_ascii (repeat "a"%char (Z.to_nat bufio_MaxScanTokenSize)).

Definition long_second_line : World :=
  {| w_fs := Sample.fs; w_stdin := ["hello"; long_line; "never read"];
     w_trace := [] |}.

End Sample_more.

(* ===================================================================== *)
(** * Strings *)

Lemma append_String c s t : String c s +:+ t = String c (s +:+ t).
Proof. reflexivity. Qed.

Lemma append_empty_l s : "" +:+ s = s.
Proof. reflexivity. Qed.

Lemma append_empty_r s : s +:+ "" = s.
Proof. induction s as [|c s IH]; [reflexivity|]. by rewrite append_String, IH. Qed.

Lemma append_assoc s t u : (s +:+ t) +:+ u = s +:+ t +:+ u.
Proof.
  induction s as [|c s IH]; [reflexivity|].
  by rewrite !append_String, IH.
Qed.

Lemma length_append s t :
  String.length (s +:+ t) = (String.length s + String.length t)%nat.
Proof.
  induction s as [|c s IH]; [reflexivity|].
  rewrite append_String. simpl. by rewrite IH.
Qed.

Lemma append_neq_r s t : s <> "" -> s +:+ t <> t.
Proof.
  intros Hs Heq. apply (f_equal String.length) in Heq.
  rewrite length_append in Heq. destruct s; [done|]. simpl in Heq. lia.
Qed.

Lemma slice_to_from j s : slice_to j s +:+ slice_from j s = s.
Proof.
  revert s. induction j as [|j IH]; intros [|c s]; try reflexivity.
  simpl. by rewrite append_String, IH.
Qed.

Lemma slice_from_plus i j s : slice_from (i + j) s = slice_from j (slice_from i s).
Proof.
  revert s. induction i as [|i IH]; intros s; [reflexivity|].
  destruct s as [|c s]; simpl; [by destruct j|]. apply IH.
Qed.

Lemma HasPrefix_empty s : strings_HasPrefix s "" = true.
Proof. by destruct s. Qed.

Lemma HasPrefix_split s prefix :
  strings_HasPrefix s prefix = true ->
  s = prefix +:+ slice_from (String.length prefix) s.
Proof.
  revert s. induction prefix as [|p prefix IH]; intros s H; [reflexivity|].
  destruct s as [|c s]; [discriminate|]. simpl in H.
  destruct (Ascii.eqb c p) eqn:Hc; [|discriminate].
  apply Ascii.eqb_eq in Hc as ->.
  rewrite append_String. simpl. f_equal. by apply IH.
Qed.

Lemma HasPrefix_append prefix s : strings_HasPrefix (prefix +:+ s) prefix = true.
Proof.
  induction prefix as [|p prefix IH]; [apply HasPrefix_empty|].
  rewrite append_String. simpl. by rewrite Ascii.eqb_refl.
Qed.

Lemma CutPrefix_append prefix s : strings_CutPrefix (prefix +:+ s) prefix = Some s.
Proof.
  induction prefix as [|p prefix IH]; [by destruct s|].
  rewrite append_String. simpl. by rewrite Ascii.eqb_refl.
Qed.

Lemma Index_unfold s substr :
  strings_Index s substr
  = if strings_HasPrefix s substr then Some O
    else match s with
         | "" => None
         | String _ s' => option_map S (strings_Index s' substr)
         end.
Proof. by destruct s. Qed.

Lemma occurrences_from_unfold i s old :
  occurrences_from i s old
  = (if strings_HasPrefix s old then [i] else []) ++
    match s with
    | "" => []
    | String _ s' => occurrences_from (S i) s' old
    end.
Proof. by destruct s. Qed.

(** A match found by [Index] splits the string around it. *)
Lemma Index_split s old j :
  strings_Index s old = Some j ->
  s = slice_to j s +:+ old +:+ slice_from (j + String.length old) s.
Proof.
  revert j. induction s as [|c s IH]; intros j; rewrite Index_unfold.
  - destruct (strings_HasPrefix "" old) eqn:Hp; [|discriminate].
    intros [= <-]. by apply HasPrefix_split in Hp.
  - destruct (strings_HasPrefix (String c s) old) eqn:Hp.
    + intros [= <-]. by apply HasPrefix_split in Hp.
    + destruct (strings_Index s old) as [j'|] eqn:Hi; [|discriminate].
      intros [= <-]. simpl. rewrite append_String. f_equal. by apply IH.
Qed.

(** [Index] finds the first of the occurrences. *)
Lemma occurrences_from_head i s old :
  head (occurrences_from i s old)
  = option_map (fun j => (i + j)%nat) (strings_Index s old).
Proof.
  revert i. induction s as [|c s IH]; intros i;
    rewrite occurrences_from_unfold, Index_unfold.
  - destruct (strings_HasPrefix "" old); simpl; [f_equal; lia|done].
  - destruct (strings_HasPrefix (String c s) old); simpl; [f_equal; lia|].
    rewrite IH. destruct (strings_Index s old); simpl; [f_equal; lia|done].
Qed.

Lemma Index_head_occurrences s old :
  strings_Index s old = head (occurrences s old).
Proof.
  unfold occurrences. rewrite occurrences_from_head.
  by destruct (strings_Index s old).
Qed.

Lemma Replace1_same s old : strings_Replace1 s old old = s.
Proof. unfold strings_Replace1. by rewrite String.eqb_refl. Qed.

Lemma Replace1_absent s old new :
  strings_Index s old = None -> strings_Replace1 s old new = s.
Proof.
  intros H. unfold strings_Replace1. rewrite H. by destruct (String.eqb old new).
Qed.

(** Only the first match is replaced: everything before it and
    everything after it is kept. *)
Lemma Replace1_first_match s old new j :
  old <> new ->
  strings_Index s old = Some j ->
  strings_Replace1 s old new
  = slice_to j s +:+ new +:+ slice_from (j + String.length old) s.
Proof.
  intros Hne Hj. unfold strings_Replace1.
  apply String.eqb_neq in Hne. by rewrite Hne, Hj.
Qed.

Lemma append_inj_l s1 s2 t : s1 +:+ t = s2 +:+ t -> s1 = s2.
Proof.
  revert s2. induction s1 as [|a s1 IH]; intros [|b s2] Heq.
  - done.
  - apply (f_equal String.length) in Heq.
    rewrite append_empty_l, append_String in Heq.
    simpl in Heq. rewrite length_append in Heq. lia.
  - apply (f_equal String.length) in Heq.
    rewrite append_empty_l, append_String in Heq.
    simpl in Heq. rewrite length_append in Heq. lia.
  - rewrite !append_String in Heq. injection Heq as -> Heq.
    f_equal. by apply IH.
Qed.

(** The single replacement leaves the string as it was exactly when
    [old] equals [new] or does not occur. *)
Lemma Replace1_unchanged_iff s old new :
  strings_Replace1 s old new = s <-> old = new \/ strings_Index s old = None.
Proof.
  split.
  - intros Hsame. destruct (String.eqb old new) eqn:Heq.
    { left. by apply String.eqb_eq. }
    apply String.eqb_neq in Heq.
    destruct (strings_Index s old) as [j|] eqn:Hj; [|by right].
    exfalso. rewrite (Replace1_first_match s old new j Heq Hj) in Hsame.
    rewrite (Index_split s old j Hj) in Hsame at 3.
    apply (inj (String.app _)) in Hsame. apply append_inj_l in Hsame.
    by apply Heq.
  - intros [->|Habsent]; [apply Replace1_same|by apply Replace1_absent].
Qed.

Lemma Replace1_changed s old new :
  strings_Replace1 s old new <> s -> old <> new.
Proof. intros H ->. by rewrite Replace1_same in H. Qed.

(* ===================================================================== *)
(** * The operating system *)

Lemma os_ReadFile_Ok name fs content :
  os_ReadFile name fs = Ok content ->
  exists writable, fs !! name = Some (File true writable content).
Proof.
  unfold os_ReadFile. intros H.
  destruct (fs !! name) as [[[] w c|]|]; try discriminate.
  injection H as ->. by exists w.
Qed.

Lemma os_ReadFile_File name (fs : FS) writable content :
  fs !! name = Some (File true writable content) ->
  os_ReadFile name fs = Ok content.
Proof. unfold os_ReadFile. by intros ->. Qed.

Lemma os_WriteFile_writable name data (fs : FS) readable content :
  fs !! name = Some (File readable true content) ->
  os_WriteFile name data fs = (None, <[name := File readable true data]> fs).
Proof. unfold os_WriteFile. by intros ->. Qed.

Lemma os_WriteFile_read_only name data (fs : FS) readable content :
  fs !! name = Some (File readable false content) ->
  os_WriteFile name data fs
  = (Some ("open " +:+ name +:+ ": permission denied"), fs).
Proof. unfold os_WriteFile. by intros ->. Qed.

Lemma os_ReadFile_insert name (fs : FS) writable data :
  os_ReadFile name (<[name := File true writable data]> fs) = Ok data.
Proof. unfold os_ReadFile. by rewrite lookup_insert_eq. Qed.

(* ===================================================================== *)
(** * [edit_file] *)

Section EditFile_properties.
Context {unmarshal_EditFileInput : Unmarshal EditFileInput}.

(** What [EditFile] does once its input is decoded and the file read. *)
Lemma EditFile_decoded_read input fs e content :
  json_Unmarshal input = Ok e ->
  os_ReadFile (EditFileInput_Path e) fs = Ok content ->
  EditFile input fs
  = let newContentStr :=
      strings_Replace1 content (EditFileInput_OldStr e) (EditFileInput_NewStr e) in
    if String.eqb newContentStr content then
      (Err ("string '" +:+ EditFileInput_OldStr e +:+ "' not found in file '"
            +:+ EditFileInput_Path e +:+ "'"), fs)
    else
      match os_WriteFile (EditFileInput_Path e) newContentStr fs with
      | (Some err, fs') =>
          (Err ("failed to write changes to file '" +:+ EditFileInput_Path e
                +:+ "': " +:+ err), fs')
      | (None, fs') => (Ok "File edited successfully", fs')
      end.
Proof. intros Hdec Hread. unfold EditFile. by rewrite Hdec, Hread. Qed.

(** C3.  An [edit_file] call on a readable file whose single replacement
    leaves the content as it was (the search text is absent) fails, and
    the file system is returned as it was: nothing is written. *)
Theorem EditFile_no_change_fails input fs e content :
  json_Unmarshal input = Ok e ->
  os_ReadFile (EditFileInput_Path e) fs = Ok content ->
  strings_Replace1 content (EditFileInput_OldStr e) (EditFileInput_NewStr e)
  = content ->
  EditFile input fs
  = (Err ("string '" +:+ EditFileInput_OldStr e +:+ "' not found in file '"
          +:+ EditFileInput_Path e +:+ "'"), fs).
Proof.
  intros Hdec Hread Hsame.
  rewrite (EditFile_decoded_read _ _ _ _ Hdec Hread). cbv zeta.
  by rewrite Hsame, String.eqb_refl.
Qed.

(** C9.  When [old] occurs in the file but equals [new], the call fails
    with the message that the string was not found, and the file system
    is returned as it was. *)
Theorem EditFile_old_equals_new_fails input fs e content :
  json_Unmarshal input = Ok e ->
  os_ReadFile (EditFileInput_Path e) fs = Ok content ->
  occurrences content (EditFileInput_OldStr e) <> [] ->
  EditFileInput_OldStr e = EditFileInput_NewStr e ->
  EditFile input fs
  = (Err ("string '" +:+ EditFileInput_OldStr e +:+ "' not found in file '"
          +:+ EditFileInput_Path e +:+ "'"), fs).
Proof.
  intros Hdec Hread _ Heq.
  rewrite (EditFile_decoded_read _ _ _ _ Hdec Hread). cbv zeta.
  by rewrite <- Heq, Replace1_same, String.eqb_refl.
Qed.

(** A changing replacement of a file that may be written succeeds and
    stores the new content. *)
Lemma EditFile_writes input fs e content :
  json_Unmarshal input = Ok e ->
  fs !! EditFileInput_Path e = Some (File true true content) ->
  strings_Replace1 content (EditFileInput_OldStr e) (EditFileInput_NewStr e)
  <> content ->
  EditFile input fs
  = (Ok "File edited successfully",
     <[EditFileInput_Path e :=
         File true true
           (strings_Replace1 content (EditFileInput_OldStr e)
              (EditFileInput_NewStr e))]> fs).
Proof.
  intros Hdec Hfile Hchanged.
  rewrite (EditFile_decoded_read _ _ _ content Hdec)
    by (by eapply os_ReadFile_File).
  cbv zeta. apply String.eqb_neq in Hchanged. rewrite Hchanged.
  by rewrite (os_WriteFile_writable _ _ _ _ _ Hfile).
Qed.

(** A changing replacement of a file that may be read but not written
    fails at the write, and the file system is returned as it was. *)
Lemma EditFile_read_only input fs e content :
  json_Unmarshal input = Ok e ->
  fs !! EditFileInput_Path e = Some (File true false content) ->
  strings_Replace1 content (EditFileInput_OldStr e) (EditFileInput_NewStr e)
  <> content ->
  EditFile input fs
  = (Err ("failed to write changes to file '" +:+ EditFileInput_Path e
          +:+ "': open " +:+ EditFileInput_Path e +:+ ": permission denied"),
     fs).
Proof.
  intros Hdec Hfile Hchanged.
  rewrite (EditFile_decoded_read _ _ _ content Hdec)
    by (by eapply os_ReadFile_File).
  cbv zeta. apply String.eqb_neq in Hchanged. rewrite Hchanged.
  by rewrite (os_WriteFile_read_only _ _ _ _ _ Hfile).
Qed.

(** C4, amended.  On a file that may be read and written and whose
    content holds an occurrence of [old], the first at offset [j], a
    replacement that changes the content succeeds; the file then holds
    the bytes before that occurrence, [new], and the bytes after that
    occurrence, later occurrences included, and nothing else of the file
    system has changed.  With exactly one occurrence ([later] empty)
    that occurrence is the one replaced. *)
Theorem EditFile_replaces_first_occurrence input fs e content j later :
  json_Unmarshal input = Ok e ->
  fs !! EditFileInput_Path e = Some (File true true content) ->
  occurrences content (EditFileInput_OldStr e) = j :: later ->
  strings_Replace1 content (EditFileInput_OldStr e) (EditFileInput_NewStr e)
  <> content ->
  content
  = slice_to j content +:+ EditFileInput_OldStr e
    +:+ slice_from (j + String.length (EditFileInput_OldStr e)) content /\
  EditFile input fs
  = (Ok "File edited successfully",
     <[EditFileInput_Path e :=
         File true true
           (slice_to j content +:+ EditFileInput_NewStr e
            +:+ slice_from (j + String.length (EditFileInput_OldStr e)) content)]>
       fs) /\
  os_ReadFile (EditFileInput_Path e) (snd (EditFile input fs))
  = Ok (slice_to j content +:+ EditFileInput_NewStr e
        +:+ slice_from (j + String.length (EditFileInput_OldStr e)) content).
Proof.
  intros Hdec Hfile Hocc Hchanged.
  assert (Hidx : strings_Index content (EditFileInput_OldStr e) = Some j)
    by (by rewrite Index_head_occurrences, Hocc).
  pose proof (Replace1_first_match _ _ _ _ (Replace1_changed _ _ _ Hchanged) Hidx)
    as Hrep.
  split; [by apply Index_split|].
  rewrite (EditFile_writes _ _ _ _ Hdec Hfile Hchanged), Hrep.
  split; [done|]. apply os_ReadFile_insert.
Qed.

(** C10, amended.  On a file that may be read and written, an empty
    [old] with a non-empty [new] succeeds and stores [new] followed by
    the original content. *)
Theorem EditFile_empty_old_prepends input fs e content :
  json_Unmarshal input = Ok e ->
  fs !! EditFileInput_Path e = Some (File true true content) ->
  EditFileInput_OldStr e = "" ->
  EditFileInput_NewStr e <> "" ->
  EditFile input fs
  = (Ok "File edited successfully",
     <[EditFileInput_Path e :=
         File true true (EditFileInput_NewStr e +:+ content)]> fs) /\
  os_ReadFile (EditFileInput_Path e) (snd (EditFile input fs))
  = Ok (EditFileInput_NewStr e +:+ content).
Proof.
  intros Hdec Hfile Hold Hnew.
  assert (Hrep : strings_Replace1 content (EditFileInput_OldStr e)
                   (EditFileInput_NewStr e)
                 = EditFileInput_NewStr e +:+ content).
  { rewrite Hold. rewrite (Replace1_first_match content "" _ O).
    - done.
    - by intros Heq; apply Hnew.
    - by rewrite Index_unfold, HasPrefix_empty. }
  rewrite (EditFile_writes _ _ _ _ Hdec Hfile); rewrite Hrep.
  - split; [done|]. apply os_ReadFile_insert.
  - by apply append_neq_r.
Qed.

End EditFile_properties.

Lemma EditFile_no_change_fails_witness :
  strings_Replace1 "hello world" "moon" "sun" = "hello world" /\
  @EditFile Sample.unmarshal_EditFileInput
    (Sample.edit_input "notes.txt" "moon" "sun") Sample.fs
  = (Err "string 'moon' not found in file 'notes.txt'", Sample.fs).
Proof.
  split; [reflexivity|].
  apply (@EditFile_no_change_fails Sample.unmarshal_EditFileInput _ Sample.fs
           {| EditFileInput_Path := "notes.txt"; EditFileInput_OldStr := "moon";
              EditFileInput_NewStr := "sun" |} "hello world");
    reflexivity.
Defined.

Lemma EditFile_old_equals_new_fails_witness :
  occurrences "hello world" "world" = [6%nat] /\
  @EditFile Sample.unmarshal_EditFileInput
    (Sample.edit_input "notes.txt" "world" "world") Sample.fs
  = (Err "string 'world' not found in file 'notes.txt'", Sample.fs).
Proof.
  split; [reflexivity|].
  apply (@EditFile_old_equals_new_fails Sample.unmarshal_EditFileInput _ Sample.fs
           {| EditFileInput_Path := "notes.txt"; EditFileInput_OldStr := "world";
              EditFileInput_NewStr := "world" |} "hello world");
    [reflexivity | reflexivity | discriminate | reflexivity].
Defined.

Lemma EditFile_replaces_first_occurrence_witness :
  occurrences "hello world" "world" = [6%nat] /\
  @EditFile Sample.unmarshal_EditFileInput
    (Sample.edit_input "notes.txt" "world" "there") Sample.fs
  = (Ok "File edited successfully",
     <["notes.txt" := File true true "hello there"]> Sample.fs).
Proof.
  split; [reflexivity|].
  apply (@EditFile_replaces_first_occurrence Sample.unmarshal_EditFileInput _
           Sample.fs
           {| EditFileInput_Path := "notes.txt"; EditFileInput_OldStr := "world";
              EditFileInput_NewStr := "there" |} "hello world" 6%nat []);
    [reflexivity | reflexivity | reflexivity | discriminate].
Defined.

Lemma EditFile_empty_old_prepends_witness :
  @EditFile Sample.unmarshal_EditFileInput
    (Sample.edit_input "notes.txt" "" "# ") Sample.fs
  = (Ok "File edited successfully",
     <["notes.txt" := File true true "# hello world"]> Sample.fs).
Proof.
  apply (@EditFile_empty_old_prepends Sample.unmarshal_EditFileInput _ Sample.fs
           {| EditFileInput_Path := "notes.txt"; EditFileInput_OldStr := "";
              EditFileInput_NewStr := "# " |} "hello world");
    [reflexivity | reflexivity | reflexivity | discriminate].
Defined.

(** C4 as stated fails on a file that may be read but not written:
    [locked.txt] holds exactly one occurrence of [world] and the
    replacement changes the content, yet the call fails at the write. *)
Lemma EditFile_single_occurrence_read_only :
  os_ReadFile "locked.txt" Sample.fs = Ok "hello world" /\
  occurrences "hello world" "world" = [6%nat] /\
  strings_Replace1 "hello world" "world" "there" <> "hello world" /\
  @EditFile Sample.unmarshal_EditFileInput
    (Sample.edit_input "locked.txt" "world" "there") Sample.fs
  = (Err "failed to write changes to file 'locked.txt': open locked.txt: permission denied",
     Sample.fs).
Proof. repeat split; try reflexivity. discriminate. Qed.

(** C10 as stated fails on a file that may be read but not written: the
    search string is empty and the replacement is not, yet the call
    fails at the write and nothing is prepended. *)
Lemma EditFile_empty_old_read_only :
  os_ReadFile "locked.txt" Sample.fs = Ok "hello world" /\
  @EditFile Sample.unmarshal_EditFileInput
    (Sample.edit_input "locked.txt" "" "# ") Sample.fs
  = (Err "failed to write changes to file 'locked.txt': open locked.txt: permission denied",
     Sample.fs).
Proof. split; reflexivity. Qed.

(** Of two occurrences only the first is replaced. *)
Example EditFile_first_of_two :
  @EditFile Sample.unmarshal_EditFileInput
    (Sample.edit_input "notes.txt" "o" "0") Sample.fs
  = (Ok "File edited successfully",
     <["notes.txt" := File true true "hell0 world"]> Sample.fs).
Proof. reflexivity. Qed.

(* ===================================================================== *)
(** * [ripgrep_search] *)

Section RipGrepSearch_properties.
Context {unmarshal_RipGrepInput : Unmarshal RipGrepInput}.
Context {exec : Exec}.

(** What [RipGrepSearch] does once its input is decoded. *)
Lemma RipGrepSearch_decoded input fs rgInput :
  json_Unmarshal input = Ok rgInput ->
  RipGrepSearch input fs
  = let '(out, err) := exec_Output "rg" (RipGrepSearch_args rgInput) fs in
    match err with
    | Some (ExitError ExitCode Stderr) =>
        if ExitCode =? 1 then (Ok "No matches found.", fs)
        else if negb (String.eqb Stderr "") then
          (Err ("ripgrep failed with exit code " +:+ pretty ExitCode +:+ ": "
                +:+ Stderr), fs)
        else (Err ("ripgrep failed with exit code " +:+ pretty ExitCode), fs)
    | Some (OtherExecError err) => (Err ("failed to execute ripgrep: " +:+ err), fs)
    | None =>
        if (String.length out =? 0)%nat then (Ok "No matches found.", fs)
        else (Ok out, fs)
    end.
Proof. intros Hdec. unfold RipGrepSearch. by rewrite Hdec. Qed.

(** C2.  When the search process exits with code 1 the tool succeeds
    with the text that nothing matched; when it exits with any other
    code the tool fails, and its message carries the exit code and,
    when there is any, the standard error of the process. *)
Theorem RipGrepSearch_exit_code input fs rgInput out ExitCode Stderr :
  json_Unmarshal input = Ok rgInput ->
  exec_Output "rg" (RipGrepSearch_args rgInput) fs
  = (out, Some (ExitError ExitCode Stderr)) ->
  (ExitCode = 1 -> RipGrepSearch input fs = (Ok "No matches found.", fs)) /\
  (ExitCode <> 1 -> Stderr <> "" ->
   RipGrepSearch input fs
   = (Err ("ripgrep failed with exit code " +:+ pretty ExitCode +:+ ": "
           +:+ Stderr), fs)) /\
  (ExitCode <> 1 -> Stderr = "" ->
   RipGrepSearch input fs
   = (Err ("ripgrep failed with exit code " +:+ pretty ExitCode), fs)).
Proof.
  intros Hdec Hrun. rewrite (RipGrepSearch_decoded _ _ _ Hdec), Hrun.
  split; [|split].
  - by intros ->.
  - intros Hcode Herr. apply Z.eqb_neq in Hcode. rewrite Hcode.
    apply String.eqb_neq in Herr. by rewrite Herr.
  - intros Hcode ->. apply Z.eqb_neq in Hcode. by rewrite Hcode.
Qed.

End RipGrepSearch_properties.

Lemma RipGrepSearch_exit_code_witness :
  @RipGrepSearch Sample.unmarshal_RipGrepInput Sample.exec
    (Sample.object [("query", "needle")]) Sample.fs
  = (Ok "No matches found.", Sample.fs) /\
  @RipGrepSearch Sample.unmarshal_RipGrepInput Sample.exec
    (Sample.object [("query", "(")]) Sample.fs
  = (Err "ripgrep failed with exit code 2: regex parse error: unclosed group",
     Sample.fs) /\
  @RipGrepSearch Sample.unmarshal_RipGrepInput Sample.exec
    (Sample.object [("query", "quiet")]) Sample.fs
  = (Err "ripgrep failed with exit code 2", Sample.fs).
Proof.
  split; [|split].
  - apply (@RipGrepSearch_exit_code Sample.unmarshal_RipGrepInput Sample.exec
             _ Sample.fs
             {| RipGrepInput_Query := "needle"; RipGrepInput_Path := "";
                RipGrepInput_IgnoreCase := false; RipGrepInput_MaxCount := 0 |}
             "" 1 ""); reflexivity.
  - apply (@RipGrepSearch_exit_code Sample.unmarshal_RipGrepInput Sample.exec
             _ Sample.fs
             {| RipGrepInput_Query := "("; RipGrepInput_Path := "";
                RipGrepInput_IgnoreCase := false; RipGrepInput_MaxCount := 0 |}
             "" 2 "regex parse error: unclosed group");
      [reflexivity | reflexivity | discriminate | discriminate].
  - apply (@RipGrepSearch_exit_code Sample.unmarshal_RipGrepInput Sample.exec
             _ Sample.fs
             {| RipGrepInput_Query := "quiet"; RipGrepInput_Path := "";
                RipGrepInput_IgnoreCase := false; RipGrepInput_MaxCount := 0 |}
             "" 2 "");
      [reflexivity | reflexivity | discriminate | reflexivity].
Defined.

(* ===================================================================== *)
(** * Directory trees and paths *)

(** Induction on a directory tree: the property may be assumed of every
    entry of a directory. *)
Lemma node_tree_ind (P : node -> Prop)
  (HFile : forall readable writable content, P (File readable writable content))
  (HDir : forall listable names,
      Forall (fun entry => P (snd entry)) names -> P (Dir listable names))
  (n : node) : P n.
Proof.
  revert n. fix IH 1. intros [readable writable content|listable names].
  - apply HFile.
  - apply HDir. induction names as [|entry names IHnames].
    + apply List.Forall_nil.
    + apply List.Forall_cons; [apply IH | apply IHnames].
Qed.

Lemma concat_cons_cons sep a b l :
  String.concat sep (a :: b :: l) = a +:+ sep +:+ String.concat sep (b :: l).
Proof. reflexivity. Qed.

Lemma concat_snoc sep l a :
  l <> [] -> String.concat sep (l ++ [a]) = String.concat sep l +:+ sep +:+ a.
Proof.
  induction l as [|b l IH]; [done|]. intros _.
  destruct l as [|c l]; [reflexivity|].
  change ((b :: c :: l) ++ [a]) with (b :: (c :: l) ++ [a]).
  change ((c :: l) ++ [a]) with (c :: l ++ [a]) at 1.
  rewrite !concat_cons_cons.
  change (c :: l ++ [a]) with ((c :: l) ++ [a]).
  rewrite IH by done. by rewrite !append_assoc.
Qed.

Lemma walk_path_snoc root rel name :
  walk_path root (rel ++ [name]) = filepath_Join (walk_path root rel) name.
Proof. unfold walk_path. by rewrite fold_left_app. Qed.

Lemma walk_path_concat root rel :
  rel <> [] -> walk_path root rel = root +:+ "/" +:+ String.concat "/" rel.
Proof.
  induction rel as [|name rel IH] using rev_ind; [done|]. intros _.
  rewrite walk_path_snoc. unfold filepath_Join.
  destruct rel as [|first rel]; [reflexivity|].
  rewrite IH by done. rewrite concat_snoc by done. by rewrite !append_assoc.
Qed.

(** [Rel] of the root and a path [Walk] built below it is the names
    below the root, joined. *)
Lemma Rel_walk_path root rel :
  rel <> [] ->
  filepath_Rel root (walk_path root rel) = Ok (String.concat "/" rel).
Proof.
  intros Hrel. rewrite walk_path_concat by done. unfold filepath_Rel.
  assert (Hne : root +:+ "/" +:+ String.concat "/" rel <> root).
  { intros Heq. apply (f_equal String.length) in Heq.
    rewrite !length_append in Heq. simpl in Heq. lia. }
  apply String.eqb_neq in Hne. rewrite Hne.
  by rewrite <- append_assoc, CutPrefix_append.
Qed.

Lemma Rel_root root : filepath_Rel root root = Ok ".".
Proof. unfold filepath_Rel. by rewrite String.eqb_refl. Qed.

(** Valid names, joined, never spell the name of the directory itself. *)
Lemma concat_valid_names_not_dot rel :
  rel <> [] ->
  Forall (fun name => valid_name name = true) rel ->
  String.concat "/" rel <> ".".
Proof.
  intros Hrel Hvalid. destruct rel as [|a [|b l]]; [done| |].
  - apply Forall_cons_1 in Hvalid as [Ha _]. simpl. intros ->. discriminate.
  - apply Forall_cons_1 in Hvalid as [Ha _]. rewrite concat_cons_cons.
    destruct a as [|c a]; [discriminate|].
    rewrite append_String. intros [= _ Heq].
    by destruct a.
Qed.

(* ===================================================================== *)
(** * [list_files] *)

Lemma walk_File {S} (walkFn : WalkFunc (S := S)) path readable writable content s :
  walk walkFn path (File readable writable content) s
  = walkFn path (Some (File readable writable content)) None s.
Proof. reflexivity. Qed.

Lemma walk_Dir_listable {S} (walkFn : WalkFunc (S := S)) path names s :
  walk walkFn path (Dir true names) s
  = let '(err1, s1) := walkFn path (Some (Dir true names)) None s in
    match err1 with
    | None =>
        walk_names
          (fun name fileInfo => walk walkFn (filepath_Join path name) fileInfo)
          names s1
    | Some _ => (err1, s1)
    end.
Proof. reflexivity. Qed.

Lemma walk_Dir_unlistable {S} (walkFn : WalkFunc (S := S)) path names s :
  walk walkFn path (Dir false names) s
  = let '(err1, s1) :=
      walkFn path (Some (Dir false names))
        (Some ("open " +:+ path +:+ ": permission denied")) s in
    (err1, s1).
Proof. simpl. by destruct (walkFn _ _ _ _) as [[?|] ?]. Qed.

(** [Walk] hands its callback an absent [info] only together with an
    error: what a callback would do with neither cannot be observed. *)
Lemma walk_ext {S} (f g : WalkFunc (S := S)) n :
  (forall path info err s, f path (Some info) err s = g path (Some info) err s) ->
  forall path s, walk f path n s = walk g path n s.
Proof.
  intros Hfg.
  induction n as [readable writable content|listable names IH]
    using node_tree_ind; intros path s.
  - rewrite !walk_File. apply Hfg.
  - destruct listable.
    + rewrite !walk_Dir_listable, Hfg.
      destruct (g path _ None s) as [[err1|] s1]; [done|].
      clear s. revert s1.
      induction names as [|[name child] names IHnames]; intros s; [done|].
      apply Forall_cons_1 in IH as [IHchild IH]. simpl in IHchild.
      simpl. rewrite IHchild.
      destruct (walk g _ child s) as [[err|] s']; [done|]. by apply IHnames.
    + by rewrite !walk_Dir_unlistable, Hfg.
Qed.

Lemma filepath_Walk_ext {S} (f g : WalkFunc (S := S)) root fs s :
  (forall path info err s,
      (info = None -> err <> None) ->
      f path info err s = g path info err s) ->
  filepath_Walk f root fs s = filepath_Walk g root fs s.
Proof.
  intros Hfg. unfold filepath_Walk. destruct (fs !! root) as [info|].
  - apply walk_ext. intros path info' err s'. by apply Hfg.
  - by apply Hfg.
Qed.

(** The callback of [ListFiles] on an entry that was reached without
    error: it appends the entry's name, except for the root. *)
Lemma ListFiles_walkFn_entry dir rel n files :
  Forall (fun name => valid_name name = true) rel ->
  ListFiles_walkFn dir (walk_path dir rel) (Some n) None files
  = (None, files ++ own_entry rel n).
Proof.
  intros Hvalid. unfold ListFiles_walkFn.
  destruct rel as [|name rel].
  - change (walk_path dir []) with dir. rewrite Rel_root. simpl.
    by rewrite app_nil_r.
  - rewrite Rel_walk_path by done.
    pose proof (concat_valid_names_not_dot (name :: rel)) as Hdot.
    apply String.eqb_neq in Hdot; [|done|done]. rewrite Hdot. simpl.
    unfold entry_name. by destruct (IsDir n).
Qed.

(** Walking a tree all of whose directories can be listed collects the
    entry itself and then everything below it, in pre-order, and meets
    no error. *)
Lemma walk_listing dir n :
  forall rel files,
    Forall (fun name => valid_name name = true) rel ->
    traversable n = true ->
    well_named n = true ->
    walk (ListFiles_walkFn dir) (walk_path dir rel) n files
    = (None, files ++ own_entry rel n ++ listing rel n).
Proof.
  induction n as [readable writable content|listable names IH]
    using node_tree_ind; intros rel files Hrel Htrav Hnamed.
  - rewrite walk_File, ListFiles_walkFn_entry by done. simpl.
    by rewrite app_nil_r.
  - simpl in Htrav. apply andb_prop in Htrav as [-> Htrav].
    rewrite walk_Dir_listable, ListFiles_walkFn_entry by done.
    simpl in Hnamed.
    assert (Hnames : forall s,
      walk_names
        (fun name fileInfo =>
           walk (ListFiles_walkFn dir)
             (filepath_Join (walk_path dir rel) name) fileInfo) names s
      = (None, s ++ listing rel (Dir true names))).
    { simpl listing. clear files.
      induction names as [|[name child] names IHnames]; intros s.
      - simpl. by rewrite app_nil_r.
      - simpl in Htrav, Hnamed.
        apply andb_prop in Htrav as [Hchild_trav Htrav].
        apply andb_prop in Hnamed as [Hchild Hnamed].
        apply andb_prop in Hchild as [Hname Hchild_named].
        apply Forall_cons_1 in IH as [IHchild IH]. simpl in IHchild.
        simpl walk_names. rewrite <- walk_path_snoc.
        rewrite (IHchild (rel ++ [name]) s); [|apply Forall_app_2; [done|by apply Forall_singleton]|done|done].
        rewrite (IHnames IH Htrav Hnamed).
        f_equal. simpl flat_map. simpl fst. simpl snd.
        rewrite <- !app_assoc. do 2 f_equal.
        unfold own_entry. by destruct rel. }
    rewrite Hnames. by rewrite app_assoc.
Qed.


(** The listing holds exactly the names of the entries reachable below
    the directory. *)
Lemma In_listing n :
  forall rel s,
    In s (listing rel n) <->
    exists rel' m, reachable n rel' m /\ s = entry_name (rel ++ rel') m.
Proof.
  induction n as [readable writable content|listable names IH]
    using node_tree_ind; intros rel s.
  - simpl. split; [done|]. intros (rel' & m & Hreach & _). inversion Hreach.
  - simpl listing. rewrite in_flat_map. split.
    + intros ([name child] & Hin & Hs). simpl in Hs. destruct Hs as [<-|Hs].
      * exists [name], child. split; [by apply reachable_entry|done].
      * rewrite Forall_forall in IH.
        apply (IH (name, child)) in Hs; [|by apply list_elem_of_In].
        destruct Hs as (rel' & m & Hreach & ->).
        exists (name :: rel'), m. split.
        -- by eapply reachable_below.
        -- by rewrite <- app_assoc.
    + intros (rel' & m & Hreach & ->).
      inversion Hreach as [l ns name m' Hin|l ns name d rel'' m' Hin Hbelow];
        subst.
      * exists (name, m). split; [done|]. simpl. by left.
      * exists (name, d). split; [done|]. simpl. right.
        rewrite Forall_forall in IH.
        apply (IH (name, d)); [by apply list_elem_of_In|].
        exists rel'', m. split; [done|]. by rewrite <- app_assoc.
Qed.

Section ListFiles_properties.
Context {unmarshal_ListFilesInput : Unmarshal ListFilesInput}.
Context {marshal_strings : Marshal (list string)}.

(** C7.  On a directory that can be traversed, [list_files] returns the
    encoding of the list of the entries reachable below the given path,
    in pre-order and nothing else: each is named by the names that lead
    to it from the given path, joined by [/], and the name of a
    directory, and of no file, is followed by one more [/]. *)
Theorem ListFiles_lists_reachable_entries input fs e dir listable names :
  json_Unmarshal input = Ok e ->
  dir = (if negb (String.eqb (ListFilesInput_Path e) "")
         then ListFilesInput_Path e else ".") ->
  fs !! dir = Some (Dir listable names) ->
  traversable (Dir listable names) = true ->
  well_named (Dir listable names) = true ->
  ListFiles input fs
  = (ListFiles_result (listing [] (Dir listable names)), fs) /\
  (forall s,
      In s (listing [] (Dir listable names)) <->
      exists rel n,
        reachable (Dir listable names) rel n /\
        s = if IsDir n then String.concat "/" rel +:+ "/"
            else String.concat "/" rel).
Proof.
  intros Hdec Hdir Hroot Htrav Hnamed. split.
  - unfold ListFiles. rewrite Hdec, <- Hdir. unfold filepath_Walk.
    rewrite Hroot.
    pose proof (walk_listing dir (Dir listable names) [] []) as Hwalk.
    change (walk_path dir []) with dir in Hwalk.
    rewrite Hwalk by done. simpl app. unfold ListFiles_result.
    by destruct (json_Marshal _).
  - intros s. apply (In_listing (Dir listable names) [] s).
Qed.

End ListFiles_properties.

Lemma ListFiles_lists_reachable_entries_witness :
  listing [] Sample.project = ["a.txt"; "sub/"; "sub/b.txt"] /\
  @ListFiles Sample.unmarshal_ListFilesInput Sample.marshal_strings
    (Sample.object [("path", "project")]) Sample.fs
  = (@ListFiles_result Sample.marshal_strings ["a.txt"; "sub/"; "sub/b.txt"],
     Sample.fs).
Proof.
  split; [reflexivity|].
  apply (@ListFiles_lists_reachable_entries Sample.unmarshal_ListFilesInput
           Sample.marshal_strings _ Sample.fs
           {| ListFilesInput_Path := "project" |} "project" true
           [("a.txt", File true true "alpha");
            ("sub", Dir true [("b.txt", File true true "beta")])]);
    reflexivity.
Defined.

(* ===================================================================== *)
(** * Tool dispatch *)


Lemma lookup_tool_Some tools name toolDef :
  lookup_tool tools name = Some toolDef -> In toolDef tools /\ Name toolDef = name.
Proof.
  induction tools as [|tool tools IH]; simpl; [discriminate|].
  destruct (String.eqb (Name tool) name) eqn:Heq.
  - apply String.eqb_eq in Heq. intros [= <-]. tauto.
  - intros H. apply IH in H. tauto.
Qed.

Lemma executeTool_not_found a id name input w :
  lookup_tool (tools a) name = None ->
  executeTool a id name input w
  = (ToolResultBlockParam id "tool not found" true,
     snd (emit (EvToolNotFound name) w)).
Proof. intros H. unfold executeTool. by rewrite H. Qed.

Lemma executeTool_Err a id name input w toolDef err fs' :
  lookup_tool (tools a) name = Some toolDef ->
  Function toolDef input (w_fs w) = (Err err, fs') ->
  executeTool a id name input w
  = (ToolResultBlockParam id err true,
     {| w_fs := fs'; w_stdin := w_stdin w;
        w_trace := w_trace w ++ [EvToolError name err] |}).
Proof.
  intros Hfound Hrun. unfold executeTool. rewrite Hfound.
  unfold bind, call_Function. by rewrite Hrun.
Qed.

Lemma executeTool_Ok a id name input w toolDef response fs' :
  lookup_tool (tools a) name = Some toolDef ->
  Function toolDef input (w_fs w) = (Ok response, fs') ->
  executeTool a id name input w
  = (ToolResultBlockParam id response false,
     {| w_fs := fs'; w_stdin := w_stdin w;
        w_trace := w_trace w ++ [EvToolResult name response] |}).
Proof.
  intros Hfound Hrun. unfold executeTool. rewrite Hfound.
  unfold bind, call_Function. by rewrite Hrun.
Qed.

(** Whatever the tool does, [executeTool] returns one result block that
    carries the identifier of the call, issues no tool request of its
    own, and depends on the world only through its files. *)
Lemma executeTool_cases a id name input w :
  exists text isError fs' e,
    executeTool a id name input w
    = (ToolResultBlockParam id text isError,
       {| w_fs := fs'; w_stdin := w_stdin w; w_trace := w_trace w ++ [e] |})
    /\ tool_requests [e] = []
    /\ forall w2, w_fs w2 = w_fs w ->
        executeTool a id name input w2
        = (ToolResultBlockParam id text isError,
           {| w_fs := fs'; w_stdin := w_stdin w2;
              w_trace := w_trace w2 ++ [e] |}).
Proof.
  destruct (lookup_tool (tools a) name) as [toolDef|] eqn:Hfound.
  - destruct (Function toolDef input (w_fs w)) as [[response|err] fs'] eqn:Hrun.
    + exists response, false, fs', (EvToolResult name response).
      split; [by eapply executeTool_Ok|]. split; [done|].
      intros w2 Hfs. eapply executeTool_Ok; [done|]. by rewrite Hfs.
    + exists err, true, fs', (EvToolError name err).
      split; [by eapply executeTool_Err|]. split; [done|].
      intros w2 Hfs. eapply executeTool_Err; [done|]. by rewrite Hfs.
  - exists "tool not found", true, (w_fs w), (EvToolNotFound name).
    split; [by apply executeTool_not_found|]. split; [done|].
    intros w2 Hfs. rewrite executeTool_not_found by done.
    unfold emit. simpl. by rewrite Hfs.
Qed.

Lemma tool_requests_app trace1 trace2 :
  tool_requests (trace1 ++ trace2) = tool_requests trace1 ++ tool_requests trace2.
Proof.
  induction trace1 as [|e trace1 IH]; [done|].
  destruct e; simpl; by rewrite IH.
Qed.

Lemma dispatch_in_order_cons a content uses w :
  dispatch_in_order a (content :: uses) w
  = let '(result, w1) :=
      executeTool a (cb_ID content) (cb_Name content) (cb_Input content) w in
    let '(results, w2) := dispatch_in_order a uses w1 in
    (result :: results, w2).
Proof.
  simpl. unfold bind, ret.
  destruct (executeTool a _ _ _ w) as [result w1].
  by destruct (dispatch_in_order a uses w1).
Qed.

(** Each result answers the block at its position. *)
Lemma dispatch_in_order_answers a uses :
  forall w, Forall2 answers (fst (dispatch_in_order a uses w)) uses.
Proof.
  induction uses as [|content uses IH]; intros w; [by constructor|].
  rewrite dispatch_in_order_cons.
  destruct (executeTool_cases a (cb_ID content) (cb_Name content)
              (cb_Input content) w) as (text & isError & fs' & e & -> & _).
  specialize (IH {| w_fs := fs'; w_stdin := w_stdin w;
                    w_trace := w_trace w ++ [e] |}).
  destruct (dispatch_in_order a uses _) as [results w2]. simpl.
  constructor; [by exists text, isError|done].
Qed.

Lemma range_Content_cons a content contents toolResults :
  range_Content a (content :: contents) toolResults
  = if String.eqb (cb_Type content) "text" then
      emit (EvClaude (cb_Text content)) ;;;
      range_Content a contents toolResults
    else if String.eqb (cb_Type content) "tool_use" then
      emit (EvToolRequest (cb_Name content) (cb_Input content)) ;;;
      result <- executeTool a (cb_ID content) (cb_Name content)
                  (cb_Input content) ;;
      range_Content a contents (toolResults ++ [result])
    else range_Content a contents toolResults.
Proof. reflexivity. Qed.

Lemma filter_is_tool_use_cons content contents :
  List.filter is_tool_use (content :: contents)
  = if String.eqb (cb_Type content) "tool_use"
    then content :: List.filter is_tool_use contents
    else List.filter is_tool_use contents.
Proof. reflexivity. Qed.

Lemma emit_trace e w :
  emit e w
  = (tt, {| w_fs := w_fs w; w_stdin := w_stdin w; w_trace := w_trace w ++ [e] |}).
Proof. reflexivity. Qed.

(** The loop over the blocks of a response dispatches its [tool_use]
    blocks in the order they appear, and appends their results in that
    order: it differs from [dispatch_in_order] only in what it logs. *)
Lemma range_Content_dispatch a contents :
  forall toolResults w1 w2,
    same_files w1 w2 ->
    exists w1',
      range_Content a contents toolResults w1
      = (toolResults
         ++ fst (dispatch_in_order a (List.filter is_tool_use contents) w2),
         w1')
      /\ same_files w1'
           (snd (dispatch_in_order a (List.filter is_tool_use contents) w2))
      /\ tool_requests (w_trace w1')
         = tool_requests (w_trace w1)
           ++ map request_of (List.filter is_tool_use contents).
Proof.
  induction contents as [|content contents IH]; intros toolResults w1 w2 Hsame.
  - exists w1. simpl. unfold ret. by rewrite !app_nil_r.
  - rewrite range_Content_cons, filter_is_tool_use_cons.
    destruct (String.eqb (cb_Type content) "text") eqn:Htext.
    + apply String.eqb_eq in Htext. rewrite Htext.
      change (String.eqb "text" "tool_use") with false. cbv iota.
      unfold bind at 1. rewrite emit_trace.
      destruct (IH toolResults
                  {| w_fs := w_fs w1; w_stdin := w_stdin w1;
                     w_trace := w_trace w1 ++ [EvClaude (cb_Text content)] |} w2)
        as (w1' & Hrun & Hsame' & Htrace); [done|].
      exists w1'. rewrite Hrun. split; [done|]. split; [done|].
      rewrite Htrace. cbn [w_trace].
      rewrite tool_requests_app. simpl. by rewrite app_nil_r.
    + destruct (String.eqb (cb_Type content) "tool_use") eqn:Huse;
        [|by apply IH].
      rewrite dispatch_in_order_cons.
      destruct (executeTool_cases a (cb_ID content) (cb_Name content)
                  (cb_Input content) w2)
        as (text & isError & fs' & e & -> & He & Hother).
      destruct Hsame as [Hfs Hstdin].
      unfold bind at 1. rewrite emit_trace. unfold bind at 1.
      rewrite (Hother {| w_fs := w_fs w1; w_stdin := w_stdin w1;
                         w_trace := w_trace w1
                           ++ [EvToolRequest (cb_Name content) (cb_Input content)] |})
        by done.
      cbn [w_stdin w_trace].
      destruct (IH (toolResults ++ [ToolResultBlockParam (cb_ID content) text
                                      isError])
                  {| w_fs := fs'; w_stdin := w_stdin w1;
                     w_trace := (w_trace w1
                       ++ [EvToolRequest (cb_Name content) (cb_Input content)])
                       ++ [e] |}
                  {| w_fs := fs'; w_stdin := w_stdin w2;
                     w_trace := w_trace w2 ++ [e] |})
        as (w1' & Hrun & Hsame' & Htrace); [done|].
      exists w1'. rewrite Hrun.
      destruct (dispatch_in_order a _ _) as [results w2'].
      cbn [fst snd] in *.
      split; [by rewrite <- app_assoc|]. split; [done|].
      rewrite Htrace. cbn [w_trace]. rewrite !tool_requests_app, He.
      simpl. by rewrite app_nil_r, <- app_assoc.
Qed.

(** The loop over the blocks only adds to the trace, and reads no user
    input. *)
Lemma range_Content_trace_extends a contents :
  forall toolResults w,
    exists events,
      w_trace (snd (range_Content a contents toolResults w))
      = w_trace w ++ events
      /\ w_stdin (snd (range_Content a contents toolResults w)) = w_stdin w.
Proof.
  induction contents as [|content contents IH]; intros toolResults w.
  - exists []. simpl. by rewrite app_nil_r.
  - rewrite range_Content_cons.
    destruct (String.eqb (cb_Type content) "text").
    + unfold bind at 1 2. rewrite emit_trace.
      match goal with
      | |- context [range_Content a contents ?r ?w0] =>
          destruct (IH r w0) as (events & -> & ->)
      end.
      eexists. cbn [w_trace w_stdin]. by rewrite <- app_assoc.
    + destruct (String.eqb (cb_Type content) "tool_use"); [|by apply IH].
      unfold bind at 1 3. rewrite emit_trace. unfold bind at 1 2.
      match goal with
      | |- context [executeTool a ?id ?name ?input ?w0] =>
          destruct (executeTool_cases a id name input w0)
            as (text & isError & fs' & e & -> & _)
      end.
      match goal with
      | |- context [range_Content a contents ?r ?w0] =>
          destruct (IH r w0) as (events & -> & ->)
      end.
      eexists. cbn [w_trace w_stdin]. by rewrite <- !app_assoc.
Qed.

(** The source of user input plays no part in the second phase. *)
Lemma range_Content_handler a h contents :
  forall toolResults w,
    range_Content (with_getUserMessage a h) contents toolResults w
    = range_Content a contents toolResults w.
Proof.
  induction contents as [|content contents IH]; intros toolResults w;
    [reflexivity|].
  rewrite !range_Content_cons.
  destruct (String.eqb (cb_Type content) "text").
  { unfold bind. destruct (emit _ w) as [u w1]. apply IH. }
  destruct (String.eqb (cb_Type content) "tool_use"); [|apply IH].
  unfold bind. destruct (emit _ w) as [u w1].
  change (executeTool (with_getUserMessage a h)) with (executeTool a).
  destruct (executeTool a _ _ _ w1) as [result w2]. apply IH.
Qed.

Lemma await_model_response_handler a h conversation w :
  await_model_response (with_getUserMessage a h) conversation w
  = await_model_response a conversation w.
Proof.
  unfold await_model_response.
  change (runInference (with_getUserMessage a h)) with (runInference a).
  unfold bind. destruct (emit _ w) as [u w1].
  destruct (runInference a conversation) as [message|err]; [|done].
  by rewrite range_Content_handler.
Qed.

Lemma iteration_without_reading a st w :
  readUserInput st = false ->
  iteration a st w = await_model_response a (conversation st) w.
Proof. intros H. unfold iteration, await_user_input. by rewrite H. Qed.

(** The second phase after a response of the model: the loop goes on;
    with no [tool_use] block the user is asked next, otherwise the
    results are appended as one user message and the model is called
    again. *)
Lemma await_model_response_Ok a conversation message w :
  runInference a conversation = Ok message ->
  exists w' events,
    await_model_response a conversation w
    = (Next (match tool_results a message w with
             | [] =>
                 {| conversation := conversation ++ [Message_ToParam message];
                    readUserInput := true |}
             | _ :: _ =>
                 {| conversation :=
                      conversation
                      ++ [Message_ToParam message;
                          NewUserMessage (tool_results a message w)];
                    readUserInput := false |}
             end), w')
    /\ same_files w' (snd (dispatch_in_order a (tool_uses message) w))
    /\ tool_requests (w_trace w')
       = tool_requests (w_trace w) ++ map request_of (tool_uses message)
    /\ w_trace w' = w_trace w ++ EvInference conversation :: events.
Proof.
  intros Hinfer. unfold await_model_response. rewrite Hinfer.
  unfold bind at 1. rewrite emit_trace. unfold bind at 1.
  match goal with
  | |- context [range_Content a (Content message) [] ?w0] =>
      destruct (range_Content_dispatch a (Content message) [] w0 w)
        as (w1 & Hrun & Hsame & Hreq); [done|];
      destruct (range_Content_trace_extends a (Content message) [] w0)
        as (events & Htrace & _)
  end.
  rewrite Hrun in Htrace |- *. cbn [snd w_trace] in Htrace, Hreq.
  exists w1, events. unfold tool_results, tool_uses. simpl app at 1.
  split; [|split; [done|split]].
  - destruct (dispatch_in_order a _ w).1; simpl; [done|].
    by rewrite <- app_assoc.
  - rewrite Hreq, tool_requests_app. simpl. by rewrite app_nil_r.
  - by rewrite Htrace, <- app_assoc.
Qed.

(* ===================================================================== *)
(** * The turn loop *)

Lemma await_user_input_prefix a st w conversation' w' :
  await_user_input a st w = (Some conversation', w') ->
  conversation st `prefix_of` conversation'.
Proof.
  unfold await_user_input. destruct (readUserInput st).
  - unfold bind. destruct (emit EvPrompt w) as [u w1].
    destruct (getUserMessage a w1) as [[userInput ok] w2].
    destruct ok; simpl; [|discriminate].
    intros [= <- _]. by apply prefix_app_r.
  - by intros [= <- _].
Qed.

Lemma await_model_response_prefix a conversation' w st' w' :
  await_model_response a conversation' w = (Next st', w') ->
  conversation' `prefix_of` conversation st'.
Proof.
  destruct (runInference a conversation') as [message|err] eqn:Hinfer.
  - destruct (await_model_response_Ok a conversation' message w Hinfer)
      as (w1 & events & -> & _).
    intros [= <- _]. destruct (tool_results a message w); simpl;
      by apply prefix_app_r.
  - unfold await_model_response. rewrite Hinfer. discriminate.
Qed.

(** One iteration only appends to the conversation. *)
Lemma iteration_append_only a st w st' w' :
  iteration a st w = (Next st', w') ->
  conversation st `prefix_of` conversation st'.
Proof.
  unfold iteration. unfold bind at 1.
  destruct (await_user_input a st w) as [[conversation'|] w1] eqn:Hread;
    [|discriminate].
  intros Hresp. etrans.
  - by eapply await_user_input_prefix.
  - by eapply await_model_response_prefix.
Qed.

(** However long the loop runs, the conversation it started from is
    still there, in place, at the front of the conversation it holds. *)
Lemma loop_append_only a fuel :
  forall st w st' w',
    loop fuel a st w = (Running st', w') ->
    conversation st `prefix_of` conversation st'.
Proof.
  induction fuel as [|fuel IH]; intros st w st' w'; simpl.
  - by intros [= <- _].
  - unfold bind at 1.
    destruct (iteration a st w) as [[| err | st1] w1] eqn:Hiter;
      try discriminate.
    intros Hloop. etrans.
    + by eapply iteration_append_only.
    + by eapply IH.
Qed.

(** The second phase starts with the inference call and reads no user
    input. *)
Lemma await_model_response_starts a sent w :
  w_stdin (snd (await_model_response a sent w)) = w_stdin w /\
  exists events,
    w_trace (snd (await_model_response a sent w))
    = w_trace w ++ EvInference sent :: events.
Proof.
  unfold await_model_response. unfold bind at 1 3. rewrite emit_trace.
  destruct (runInference a sent) as [message|err].
  - unfold bind.
    match goal with
    | |- context [range_Content a (Content message) [] ?w0] =>
        destruct (range_Content_trace_extends a (Content message) [] w0)
          as (events & Htrace & Hstdin);
        destruct (range_Content a (Content message) [] w0)
          as [toolResults w1]
    end.
    cbn [snd w_trace w_stdin] in *.
    destruct (length toolResults =? 0)%nat; cbn [snd ret];
      (split; [done|]); exists events; by rewrite Htrace, <- app_assoc.
  - cbn [snd ret w_trace w_stdin]. split; [done|]. by exists [].
Qed.

(** One more iteration of the loop of [Run]. *)
Lemma loop_S fuel a st w :
  loop (S fuel) a st w
  = let '(r, w1) := iteration a st w in
    match r with
    | Break => (Returned None, w1)
    | Return err => (Returned (Some err), w1)
    | Next st' => loop fuel a st' w1
    end.
Proof.
  simpl. unfold bind at 1.
  by destruct (iteration a st w) as [[| err | st'] w1].
Qed.

(** What a dispatch logs is the outcome of a tool call. *)
Lemma executeTool_response_event a id name input w :
  exists e,
    w_trace (snd (executeTool a id name input w)) = w_trace w ++ [e]
    /\ response_event e = true.
Proof.
  destruct (lookup_tool (tools a) name) as [toolDef|] eqn:Hfound.
  - destruct (Function toolDef input (w_fs w)) as [[response|err] fs'] eqn:Hrun.
    + rewrite (executeTool_Ok _ _ _ _ _ _ _ _ Hfound Hrun). by eexists.
    + rewrite (executeTool_Err _ _ _ _ _ _ _ _ Hfound Hrun). by eexists.
  - rewrite (executeTool_not_found _ _ _ _ _ Hfound). by eexists.
Qed.

(** While the program works through the blocks of a response it logs
    texts, tool requests and outcomes of tool calls, and nothing else:
    it neither prompts the user nor calls the model. *)
Lemma range_Content_response_events a contents :
  forall toolResults w,
    exists events,
      w_trace (snd (range_Content a contents toolResults w))
      = w_trace w ++ events
      /\ forallb response_event events = true.
Proof.
  induction contents as [|content contents IH]; intros toolResults w.
  - exists []. by rewrite app_nil_r.
  - rewrite range_Content_cons.
    destruct (String.eqb (cb_Type content) "text").
    + unfold bind. rewrite emit_trace.
      match goal with
      | |- context [range_Content a contents toolResults ?w0] =>
          destruct (IH toolResults w0) as (events & -> & Hevents)
      end.
      exists (EvClaude (cb_Text content) :: events). cbn [w_trace].
      by rewrite <- app_assoc.
    + destruct (String.eqb (cb_Type content) "tool_use"); [|apply IH].
      unfold bind. rewrite emit_trace.
      match goal with
      | |- context [executeTool a ?id ?name ?input ?w0] =>
          destruct (executeTool_response_event a id name input w0)
            as (e & Htrace & He);
          destruct (executeTool a id name input w0) as [result w1]
      end.
      cbn [snd w_trace] in Htrace.
      destruct (IH (toolResults ++ [result]) w1) as (events & -> & Hevents).
      exists (EvToolRequest (cb_Name content) (cb_Input content) :: e :: events).
      rewrite Htrace, <- !app_assoc. split; [done|].
      cbn [forallb response_event]. by rewrite He, Hevents.
Qed.

(** Between the inference call of an iteration and the end of the
    iteration there is no prompt and no other inference call. *)
Lemma await_model_response_response_events a sent message w :
  runInference a sent = Ok message ->
  exists events,
    w_trace (snd (await_model_response a sent w))
    = w_trace w ++ EvInference sent :: events
    /\ forallb response_event events = true.
Proof.
  intros Hinfer. unfold await_model_response. rewrite Hinfer.
  unfold bind at 1. rewrite emit_trace. unfold bind at 1.
  match goal with
  | |- context [range_Content a (Content message) [] ?w0] =>
      destruct (range_Content_response_events a (Content message) [] w0)
        as (events & Htrace & Hevents);
      destruct (range_Content a (Content message) [] w0) as [toolResults w1]
  end.
  cbn [snd w_trace] in Htrace. exists events. split; [|done].
  destruct (length toolResults =? 0)%nat; cbn [snd ret];
    by rewrite Htrace, <- app_assoc.
Qed.

(** C1.  For a response [message] of the model to the conversation
    [sent], received in the world [w]: the results of its [tool_use]
    blocks, dispatched one after the other in the order of the blocks,
    answer the blocks one for one in that order.  When there is at
    least one block, the iteration ends with the conversation
    [answered]: the conversation sent, the response as a message of the
    assistant, and one message of the user whose content is exactly
    those results.  Since the inference call the program has logged
    only texts, tool requests and outcomes of tool calls, the requests
    in the order of the blocks; it has not prompted the user, read no
    input and called the model no second time.  The loop of [Run],
    where it reached [w] by its first phase (also from the start of
    [Run]), goes on with the second phase on [answered], which begins
    with the inference call on [answered] and reads no input, and then
    with what that phase leaves.  The conversation of the loop is only
    ever extended at its end. *)
Theorem Run_answers_tool_uses_in_order a sent message w :
  runInference a sent = Ok message ->
  Forall2 answers (tool_results a message w) (tool_uses message) /\
  (tool_uses message <> [] ->
   exists answered w' events,
     answered
     = sent
       ++ [{| mp_Role := "assistant";
              mp_Content := map ContentBlock_ToParam (Content message) |};
           {| mp_Role := "user";
              mp_Content := tool_results a message w |}]
     /\ await_model_response a sent w
        = (Next {| conversation := answered; readUserInput := false |}, w')
     /\ same_files w' (snd (dispatch_in_order a (tool_uses message) w))
     /\ w_stdin w' = w_stdin w
     /\ w_trace w' = w_trace w ++ EvInference sent :: events
     /\ forallb response_event events = true
     /\ tool_requests (w_trace w')
        = tool_requests (w_trace w) ++ map request_of (tool_uses message)
     /\ (forall fuel st w0,
           await_user_input a st w0 = (Some sent, w) ->
           loop (S (S fuel)) a st w0
           = loop_after fuel a (await_model_response a answered w'))
     /\ (forall fuel w0,
           await_user_input a {| conversation := []; readUserInput := true |}
             (snd (emit EvBanner w0)) = (Some sent, w) ->
           Run (S (S fuel)) a w0
           = loop_after fuel a (await_model_response a answered w'))
     /\ w_stdin (snd (await_model_response a answered w')) = w_stdin w'
     /\ (exists events',
           w_trace (snd (await_model_response a answered w'))
           = w_trace w' ++ EvInference answered :: events')
     /\ forall h w2,
          iteration (with_getUserMessage a h)
            {| conversation := answered; readUserInput := false |} w2
          = await_model_response a answered w2
          /\ w_stdin (snd (await_model_response a answered w2)) = w_stdin w2
          /\ exists events',
               w_trace (snd (await_model_response a answered w2))
               = w_trace w2 ++ EvInference answered :: events') /\
  (forall fuel st w0 st' w0',
      loop fuel a st w0 = (Running st', w0') ->
      conversation st `prefix_of` conversation st').
Proof.
  intros Hinfer. split; [apply dispatch_in_order_answers|]. split.
  - intros Huses.
    destruct (await_model_response_Ok a sent message w Hinfer)
      as (w' & events0 & Hresp & Hsame & Hreq & _).
    destruct (await_model_response_response_events a sent message w Hinfer)
      as (events & Htrace & Hevents).
    pose proof (proj1 (await_model_response_starts a sent w)) as Hstdin.
    rewrite Hresp in Htrace, Hstdin. cbn [snd] in Htrace, Hstdin.
    pose proof (dispatch_in_order_answers a (tool_uses message) w) as Hans.
    fold (tool_results a message w) in Hans.
    destruct (tool_results a message w) as [|result results] eqn:Hresults.
    { by apply Forall2_nil_inv_l in Hans. }
    assert (forall fuel st w0,
               await_user_input a st w0 = (Some sent, w) ->
               loop (S (S fuel)) a st w0
               = loop_after fuel a
                   (await_model_response a
                      (sent ++ [Message_ToParam message;
                                NewUserMessage (result :: results)]) w'))
      as Hloop.
    { intros fuel st w0 Hread. rewrite loop_S. unfold iteration at 1.
      unfold bind at 1. rewrite Hread, Hresp.
      rewrite loop_S, iteration_without_reading by done.
      cbn [conversation]. unfold loop_after.
      by destruct (await_model_response a _ w') as [[| err | st2] w2]. }
    eexists _, w', events. split; [reflexivity|].
    split; [exact Hresp|]. split; [done|]. split; [done|]. split; [done|].
    split; [done|]. split; [done|]. split; [exact Hloop|]. split.
    { intros fuel w0 Hread. unfold Run. unfold bind at 1.
      destruct (emit EvBanner w0) as [u w1] eqn:Hbanner. cbn [snd] in Hread.
      by apply Hloop. }
    split; [apply await_model_response_starts|].
    split; [apply await_model_response_starts|].
    intros h w2. split.
    + rewrite iteration_without_reading by done.
      apply await_model_response_handler.
    + apply await_model_response_starts.
  - intros fuel st w0 st' w0'. apply loop_append_only.
Qed.

Lemma Run_answers_tool_uses_in_order_witness :
  tool_results Sample.agent Sample.first_response
    {| w_fs := Sample.fs; w_stdin := []; w_trace := [EvBanner; EvPrompt] |}
  = [ToolResultBlockParam "toolu_1" "hello world" false;
     ToolResultBlockParam "toolu_2" "tool not found" true] /\
  Run 2 Sample.agent Sample.world
  = (Running
       {| conversation :=
            [{| mp_Role := "user";
                mp_Content := [TextBlockParam "what is in notes.txt?"] |};
             Message_ToParam Sample.first_response;
             {| mp_Role := "user";
                mp_Content :=
                  [ToolResultBlockParam "toolu_1" "hello world" false;
                   ToolResultBlockParam "toolu_2" "tool not found" true] |};
             Message_ToParam Sample.second_response];
          readUserInput := true |},
     {| w_fs := Sample.fs; w_stdin := [];
        w_trace :=
          [EvBanner; EvPrompt; EvInference Sample.greeting;
           EvClaude "Let me look.";
           EvToolRequest "read_file" (Sample.object [("path", "notes.txt")]);
           EvToolResult "read_file" "hello world";
           EvToolRequest "delete_file" (Sample.object [("path", "notes.txt")]);
           EvToolNotFound "delete_file";
           EvInference
             (Sample.greeting
              ++ [Message_ToParam Sample.first_response;
                  {| mp_Role := "user";
                     mp_Content :=
                       [ToolResultBlockParam "toolu_1" "hello world" false;
                        ToolResultBlockParam "toolu_2" "tool not found" true]
                  |}]);
           EvClaude "The file says hello world."] |}).
Proof.
  destruct (Run_answers_tool_uses_in_order Sample.agent Sample.greeting
              Sample.first_response
              {| w_fs := Sample.fs; w_stdin := [];
                 w_trace := [EvBanner; EvPrompt] |} eq_refl)
    as (_ & Hsome & _).
  destruct Hsome
    as (answered & w' & events & Hanswered & Hresp & _ & _ & _ & _ & _ & _
        & HRun & _); [discriminate|].
  specialize (HRun 0%nat Sample.world eq_refl).
  pose proof (f_equal snd Hresp) as Hw'. cbn [snd] in Hw'.
  rewrite HRun, <- Hw', Hanswered. split; reflexivity.
Defined.




(** Whatever its tools do, the second phase ends the run only when the
    inference call fails. *)
Lemma await_model_response_goes_on a sent message w :
  runInference a sent = Ok message ->
  exists st' w', await_model_response a sent w = (Next st', w').
Proof.
  intros Hinfer.
  destruct (await_model_response_Ok a sent message w Hinfer)
    as (w' & events & Hresp & _).
  by eexists _, w'.
Qed.

Section Dispatch_properties.
Context {unmarshal_ReadFileInput : Unmarshal ReadFileInput}.
Context {unmarshal_ListFilesInput : Unmarshal ListFilesInput}.
Context {unmarshal_EditFileInput : Unmarshal EditFileInput}.
Context {unmarshal_RipGrepInput : Unmarshal RipGrepInput}.
Context {marshal_strings : Marshal (list string)}.
Context {exec : Exec}.

(** The names of the registry are distinct: each finds its own tool. *)
Lemma lookup_tool_GetTools toolDef :
  In toolDef GetTools -> lookup_tool GetTools (Name toolDef) = Some toolDef.
Proof. intros [<-|[<-|[<-|[<-|[]]]]]; reflexivity. Qed.

(** Each tool of the registry stops at an input it cannot decode: it
    fails with a message that names the tool and carries the decoder's
    error, and returns the file system it was given. *)
Lemma Function_decode_error toolDef input fs err :
  In toolDef GetTools ->
  decode_error (Name toolDef) input = Some err ->
  Function toolDef input fs
  = (Err ("invalid input format for " +:+ Name toolDef +:+ ": " +:+ err), fs).
Proof.
  intros [<-|[<-|[<-|[<-|[]]]]]; unfold decode_error; simpl;
    [unfold ReadFile | unfold ListFiles | unfold EditFile | unfold RipGrepSearch];
    destruct (json_Unmarshal input); by intros [= ->].
Qed.

(** C6.  With the registry of [GetTools]: a payload that cannot be
    decoded into the input of the tool it is sent to gives a failed
    result block with a message that says so, and the tool has touched
    nothing; a failure that the tool's function reports becomes a failed
    result block with the text of the error; dispatch always returns a
    result block; and the iteration goes on whenever the inference call
    itself succeeded. *)
Theorem executeTool_failures_are_results a :
  tools a = GetTools ->
  (forall toolDef id input w err,
      In toolDef GetTools ->
      decode_error (Name toolDef) input = Some err ->
      executeTool a id (Name toolDef) input w
      = (ToolResultBlockParam id
           ("invalid input format for " +:+ Name toolDef +:+ ": " +:+ err) true,
         {| w_fs := w_fs w; w_stdin := w_stdin w;
            w_trace :=
              w_trace w
              ++ [EvToolError (Name toolDef)
                    ("invalid input format for " +:+ Name toolDef +:+ ": "
                     +:+ err)] |})) /\
  (forall toolDef id input w err fs',
      In toolDef GetTools ->
      Function toolDef input (w_fs w) = (Err err, fs') ->
      executeTool a id (Name toolDef) input w
      = (ToolResultBlockParam id err true,
         {| w_fs := fs'; w_stdin := w_stdin w;
            w_trace := w_trace w ++ [EvToolError (Name toolDef) err] |})) /\
  (forall id name input w,
      exists text isError w',
        executeTool a id name input w
        = (ToolResultBlockParam id text isError, w')) /\
  (forall sent message w,
      runInference a sent = Ok message ->
      exists st' w', await_model_response a sent w = (Next st', w')).
Proof.
  intros Htools. split; [|split; [|split]].
  - intros toolDef id input w err Hin Hdec.
    apply (executeTool_Err a id (Name toolDef) input w toolDef).
    + rewrite Htools. by apply lookup_tool_GetTools.
    + by apply Function_decode_error.
  - intros toolDef id input w err fs' Hin Hrun.
    apply (executeTool_Err a id (Name toolDef) input w toolDef); [|done].
    rewrite Htools. by apply lookup_tool_GetTools.
  - intros id name input w.
    destruct (executeTool_cases a id name input w)
      as (text & isError & fs' & e & Hrun & _).
    by eexists text, isError, _.
  - intros sent message w. apply await_model_response_goes_on.
Qed.

End Dispatch_properties.

Lemma executeTool_failures_are_results_witness :
  executeTool Sample.agent "toolu_3" "edit_file" "[1]" Sample.world
  = (ToolResultBlockParam "toolu_3"
       "invalid input format for edit_file: json: cannot unmarshal into Go value"
       true,
     {| w_fs := Sample.fs; w_stdin := ["what is in notes.txt?"];
        w_trace :=
          [EvToolError "edit_file"
             "invalid input format for edit_file: json: cannot unmarshal into Go value"] |}).
Proof.
  apply (proj1 (@executeTool_failures_are_results
                  Sample.unmarshal_ReadFileInput Sample.unmarshal_ListFilesInput
                  Sample.unmarshal_EditFileInput Sample.unmarshal_RipGrepInput
                  Sample.marshal_strings Sample.exec
                  Sample.agent eq_refl)
           (@EditFileDefinition Sample.unmarshal_EditFileInput)
           "toolu_3" "[1]" Sample.world
           "json: cannot unmarshal into Go value").
  - simpl. tauto.
  - reflexivity.
Defined.

(** C8.  When the source of user input reports the end of the input in
    the first phase of an iteration, the iteration breaks out of the
    loop and the run returns no error, however many iterations were
    still allowed; in particular a run that finds its standard input
    empty returns no error. *)
Theorem Run_returns_nil_at_end_of_input a st w text w' fuel :
  readUserInput st = true ->
  getUserMessage a (snd (emit EvPrompt w)) = ((text, false), w') ->
  iteration a st w = (Break, w') /\
  loop (S fuel) a st w = (Returned None, w') /\
  (forall client tools w0,
      w_stdin w0 = [] ->
      fst (Run (S fuel) (NewAgent client main_getUserMessage tools) w0)
      = Returned None).
Proof.
  intros Hread Heof.
  assert (Hiter : iteration a st w = (Break, w')).
  { unfold iteration, await_user_input. rewrite Hread.
    unfold bind. rewrite emit_trace in *. cbn [snd] in Heof.
    by rewrite Heof. }
  split; [done|]. split.
  - simpl. unfold bind at 1. by rewrite Hiter.
  - intros client0 tools0 w0 Hstdin.
    unfold Run, loop, iteration, await_user_input, bind.
    rewrite !emit_trace. cbn [readUserInput getUserMessage NewAgent].
    unfold main_getUserMessage. cbn [w_stdin]. by rewrite Hstdin.
Qed.

Lemma Run_returns_nil_at_end_of_input_witness :
  loop 1 Sample.agent
    {| conversation := Sample.greeting; readUserInput := true |}
    {| w_fs := Sample.fs; w_stdin := []; w_trace := [] |}
  = (Returned None,
     {| w_fs := Sample.fs; w_stdin := []; w_trace := [EvPrompt] |}).
Proof.
  apply (Run_returns_nil_at_end_of_input Sample.agent
           {| conversation := Sample.greeting; readUserInput := true |}
           {| w_fs := Sample.fs; w_stdin := []; w_trace := [] |} ""
           {| w_fs := Sample.fs; w_stdin := []; w_trace := [EvPrompt] |} 0);
    reflexivity.
Defined.

(** The scripted model at work: one line of input, a response with two
    tool calls, their results sent back without asking the user, a
    closing text, and the end of the input. *)
Example Sample_run :
  fst (Run 3 Sample.agent Sample.world) = Returned None /\
  w_trace (snd (Run 3 Sample.agent Sample.world))
  = [EvBanner; EvPrompt; EvInference Sample.greeting;
     EvClaude "Let me look.";
     EvToolRequest "read_file" (Sample.object [("path", "notes.txt")]);
     EvToolResult "read_file" "hello world";
     EvToolRequest "delete_file" (Sample.object [("path", "notes.txt")]);
     EvToolNotFound "delete_file";
     EvInference
       (Sample.greeting
        ++ [Message_ToParam Sample.first_response;
            NewUserMessage
              [ToolResultBlockParam "toolu_1" "hello world" false;
               ToolResultBlockParam "toolu_2" "tool not found" true]]);
     EvClaude "The file says hello world.";
     EvPrompt].
Proof. split; reflexivity. Qed.

(* ===================================================================== *)
(** * More on [read_file] and [edit_file] *)

Lemma Index_le s old j : strings_Index s old = Some j -> (j <= String.length s)%nat.
Proof.
  revert j. induction s as [|c s IH]; intros j; rewrite Index_unfold.
  - destruct (strings_HasPrefix "" old); [|discriminate].
    intros [= <-]. simpl. lia.
  - destruct (strings_HasPrefix (String c s) old).
    + intros [= <-]. lia.
    + destruct (strings_Index s old) as [j'|]; [|discriminate].
      intros [= <-]. specialize (IH j' eq_refl). simpl. lia.
Qed.

Lemma slice_to_length j s :
  (j <= String.length s)%nat -> String.length (slice_to j s) = j.
Proof.
  revert s. induction j as [|j IH]; intros [|c s] Hj; simpl in *; try lia.
  rewrite IH; lia.
Qed.

Lemma slice_to_append s t : slice_to (String.length s) (s +:+ t) = s.
Proof.
  induction s as [|c s IH]; [by destruct t|].
  rewrite append_String. simpl. by rewrite IH.
Qed.

Lemma slice_from_append s t : slice_from (String.length s) (s +:+ t) = t.
Proof.
  induction s as [|c s IH]; [done|]. rewrite append_String. simpl. apply IH.
Qed.

Section File_tools_properties.
Context {unmarshal_ReadFileInput : Unmarshal ReadFileInput}.
Context {unmarshal_EditFileInput : Unmarshal EditFileInput}.

(** X1.  [read_file] succeeds exactly on a regular file that may be
    read, with its bytes as the result; in every case it returns the
    file system it was given. *)
Theorem ReadFile_succeeds_iff input fs r :
  json_Unmarshal input = Ok r ->
  snd (ReadFile input fs) = fs /\
  (forall content,
      fst (ReadFile input fs) = Ok content <->
      exists writable,
        fs !! ReadFileInput_Path r = Some (File true writable content)).
Proof.
  intros Hdec. unfold ReadFile, os_ReadFile. rewrite Hdec.
  destruct (fs !! ReadFileInput_Path r) as [[[] writable c|l names]|]; simpl;
    (split; [done|]); intros content; split;
    try discriminate; try (by intros [w [=]]).
  - intros [= ->]. by exists writable.
  - by intros [w [= _ ->]].
Qed.

(** What a successful [EditFile] found and did. *)
Lemma EditFile_Ok_inv input fs e msg fs' :
  json_Unmarshal input = Ok e ->
  EditFile input fs = (Ok msg, fs') ->
  exists content,
    fs !! EditFileInput_Path e = Some (File true true content)
    /\ strings_Replace1 content (EditFileInput_OldStr e) (EditFileInput_NewStr e)
       <> content
    /\ msg = "File edited successfully"
    /\ fs' = <[EditFileInput_Path e :=
                File true true
                  (strings_Replace1 content (EditFileInput_OldStr e)
                     (EditFileInput_NewStr e))]> fs.
Proof.
  intros Hdec. unfold EditFile. rewrite Hdec. cbv zeta.
  destruct (os_ReadFile (EditFileInput_Path e) fs) as [content|err] eqn:Hread;
    [|discriminate].
  apply os_ReadFile_Ok in Hread as [writable Hfile].
  destruct (String.eqb _ content) eqn:Hsame; [discriminate|].
  apply String.eqb_neq in Hsame.
  unfold os_WriteFile. rewrite Hfile. destruct writable; [|discriminate].
  intros [= <- <-]. by exists content.
Qed.

(** X2.  [edit_file] succeeds exactly when the path holds a regular file
    that may be read and written, [old] differs from [new], and [old]
    occurs in the file. *)
Theorem EditFile_succeeds_iff input fs e :
  json_Unmarshal input = Ok e ->
  (exists fs', EditFile input fs = (Ok "File edited successfully", fs')) <->
  (exists content,
      fs !! EditFileInput_Path e = Some (File true true content)
      /\ EditFileInput_OldStr e <> EditFileInput_NewStr e
      /\ strings_Index content (EditFileInput_OldStr e) <> None).
Proof.
  intros Hdec. split.
  - intros [fs' Hrun].
    destruct (EditFile_Ok_inv _ _ _ _ _ Hdec Hrun)
      as (content & Hfile & Hchanged & _).
    exists content. split; [done|].
    rewrite Replace1_unchanged_iff in Hchanged. tauto.
  - intros (content & Hfile & Hne & Hocc). eexists.
    apply (EditFile_writes _ _ _ content Hdec Hfile).
    rewrite Replace1_unchanged_iff. tauto.
Qed.

(** X3.  After a successful [edit_file], [read_file] of the path that
    was edited returns what it returned before with the replacement
    made: the first occurrence of [old] replaced by [new]. *)
Theorem EditFile_then_ReadFile input fs e msg fs' rinput r :
  json_Unmarshal input = Ok e ->
  EditFile input fs = (Ok msg, fs') ->
  json_Unmarshal rinput = Ok r ->
  ReadFileInput_Path r = EditFileInput_Path e ->
  exists content,
    ReadFile rinput fs = (Ok content, fs) /\
    ReadFile rinput fs'
    = (Ok (strings_Replace1 content (EditFileInput_OldStr e)
             (EditFileInput_NewStr e)), fs').
Proof.
  intros Hdec Hrun Hrdec Hpath.
  destruct (EditFile_Ok_inv _ _ _ _ _ Hdec Hrun)
    as (content & Hfile & _ & _ & ->).
  unfold ReadFile. rewrite Hrdec, Hpath. exists content.
  by rewrite os_ReadFile_insert, (os_ReadFile_File _ _ _ _ Hfile).
Qed.

(** [EditFile] comes to its write only with an input that decodes, a
    file that can be read and a replacement that changes what was read;
    otherwise it fails with the file system it was given. *)
Lemma EditFile_before_write input fs :
  (forall e content,
      json_Unmarshal input = Ok e ->
      os_ReadFile (EditFileInput_Path e) fs = Ok content ->
      strings_Replace1 content (EditFileInput_OldStr e) (EditFileInput_NewStr e)
      = content) ->
  exists err, EditFile input fs = (Err err, fs).
Proof.
  intros Hbefore. unfold EditFile.
  destruct (json_Unmarshal input) as [e|derr]; [|by eexists].
  cbv zeta.
  destruct (os_ReadFile (EditFileInput_Path e) fs) as [content|rerr] eqn:Hread;
    [|by eexists].
  rewrite (Hbefore e content eq_refl Hread), String.eqb_refl. by eexists.
Qed.

(** X4.  [edit_file] writes only after its input has been decoded, the
    file has been read and the replacement has changed what was read.
    When one of the three is missing (an input that is not decoded, a
    file that cannot be read, a replacement that changes nothing) the
    call fails and the file system is the one it was given. *)
Theorem EditFile_fails_before_writing input fs :
  (forall e content,
      json_Unmarshal input = Ok e ->
      os_ReadFile (EditFileInput_Path e) fs = Ok content ->
      strings_Replace1 content (EditFileInput_OldStr e) (EditFileInput_NewStr e)
      = content) ->
  exists err, EditFile input fs = (Err err, fs).
Proof.
  intros Hbefore. unfold EditFile.
  destruct (json_Unmarshal input) as [e|derr] eqn:Hdec.
  - cbv zeta.
    destruct (os_ReadFile (EditFileInput_Path e) fs) as [content|rerr] eqn:Hread.
    + specialize (Hbefore e content eq_refl Hread).
      rewrite Hbefore, String.eqb_refl.
      by exists ("string '" +:+ EditFileInput_OldStr e +:+ "' not found in file '"
                 +:+ EditFileInput_Path e +:+ "'").
    + by exists ("failed to read file '" +:+ EditFileInput_Path e
                 +:+ "' for editing: " +:+ rerr).
  - by exists ("invalid input format for edit_file: " +:+ derr).
Qed.

(** X5.  An edit can be undone: when [new] does not occur in the edited
    content before the place where it was put, the edit with [old] and
    [new] exchanged succeeds and gives back the file system from before
    the first edit. *)
Theorem EditFile_undo input undo fs e msg fs1 content j :
  json_Unmarshal input = Ok e ->
  json_Unmarshal undo
  = Ok {| EditFileInput_Path := EditFileInput_Path e;
          EditFileInput_OldStr := EditFileInput_NewStr e;
          EditFileInput_NewStr := EditFileInput_OldStr e |} ->
  EditFile input fs = (Ok msg, fs1) ->
  os_ReadFile (EditFileInput_Path e) fs = Ok content ->
  strings_Index content (EditFileInput_OldStr e) = Some j ->
  strings_Index
    (strings_Replace1 content (EditFileInput_OldStr e) (EditFileInput_NewStr e))
    (EditFileInput_NewStr e) = Some j ->
  EditFile undo fs1 = (Ok "File edited successfully", fs).
Proof.
  intros Hdec Hundo Hrun Hread Hj Hj'.
  destruct (EditFile_Ok_inv _ _ _ _ _ Hdec Hrun)
    as (content' & Hfile & Hchanged & _ & ->).
  rewrite (os_ReadFile_File _ _ _ _ Hfile) in Hread. injection Hread as ->.
  pose proof (Replace1_changed _ _ _ Hchanged) as Hne.
  rewrite (Replace1_first_match _ _ _ _ Hne Hj) in Hj' |- *.
  set (before := slice_to j content) in *.
  set (after := slice_from (j + String.length (EditFileInput_OldStr e)) content)
    in *.
  assert (Hlen : String.length before = j)
    by (apply slice_to_length; by eapply Index_le).
  assert (Hback :
    strings_Replace1 (before +:+ EditFileInput_NewStr e +:+ after)
      (EditFileInput_NewStr e) (EditFileInput_OldStr e) = content).
  { rewrite (Replace1_first_match _ _ _ j); [|done|done].
    rewrite <- Hlen at 1. rewrite slice_to_append.
    rewrite slice_from_plus. rewrite <- Hlen at 1.
    rewrite slice_from_append, slice_from_append.
    symmetry. by apply Index_split. }
  rewrite (EditFile_writes undo _ _ (before +:+ EditFileInput_NewStr e +:+ after)
             Hundo).
  - cbn [EditFileInput_Path EditFileInput_OldStr EditFileInput_NewStr].
    rewrite Hback, insert_insert_eq. f_equal. by apply insert_id.
  - cbn [EditFileInput_Path]. by rewrite lookup_insert_eq.
  - cbn [EditFileInput_OldStr EditFileInput_NewStr]. rewrite Hback.
    intros Heq. apply Hchanged.
    rewrite (Replace1_first_match _ _ _ _ Hne Hj). done.
Qed.

End File_tools_properties.

Lemma ReadFile_succeeds_iff_witness :
  fst (@ReadFile Sample.unmarshal_ReadFileInput
         (Sample_more.read_input "notes.txt") Sample.fs)
  = Ok "hello world".
Proof.
  apply (@ReadFile_succeeds_iff Sample.unmarshal_ReadFileInput
           (Sample_more.read_input "notes.txt") Sample.fs
           {| ReadFileInput_Path := "notes.txt" |} eq_refl).
  by exists true.
Defined.

Lemma EditFile_succeeds_iff_witness :
  exists fs',
    @EditFile Sample.unmarshal_EditFileInput
      (Sample.edit_input "notes.txt" "world" "there") Sample.fs
    = (Ok "File edited successfully", fs').
Proof.
  apply (@EditFile_succeeds_iff Sample.unmarshal_EditFileInput
           (Sample.edit_input "notes.txt" "world" "there") Sample.fs
           {| EditFileInput_Path := "notes.txt"; EditFileInput_OldStr := "world";
              EditFileInput_NewStr := "there" |} eq_refl).
  exists "hello world". repeat split; discriminate.
Defined.

Lemma EditFile_then_ReadFile_witness :
  exists content,
    @ReadFile Sample.unmarshal_ReadFileInput
      (Sample_more.read_input "notes.txt") Sample.fs
    = (Ok content, Sample.fs) /\
    @ReadFile Sample.unmarshal_ReadFileInput
      (Sample_more.read_input "notes.txt")
      (<["notes.txt" := File true true "hello there"]> Sample.fs)
    = (Ok (strings_Replace1 content "world" "there"),
       <["notes.txt" := File true true "hello there"]> Sample.fs).
Proof.
  apply (@EditFile_then_ReadFile Sample.unmarshal_ReadFileInput
           Sample.unmarshal_EditFileInput
           (Sample.edit_input "notes.txt" "world" "there") Sample.fs
           {| EditFileInput_Path := "notes.txt"; EditFileInput_OldStr := "world";
              EditFileInput_NewStr := "there" |}
           "File edited successfully"
           (<["notes.txt" := File true true "hello there"]> Sample.fs)
           (Sample_more.read_input "notes.txt")
           {| ReadFileInput_Path := "notes.txt" |});
    reflexivity.
Defined.

Lemma EditFile_fails_before_writing_witness :
  exists err,
    @EditFile Sample.unmarshal_EditFileInput
      (Sample.edit_input "notes.txt" "moon" "there") Sample.fs
    = (Err err, Sample.fs).
Proof.
  apply (@EditFile_fails_before_writing Sample.unmarshal_EditFileInput
           (Sample.edit_input "notes.txt" "moon" "there") Sample.fs).
  intros e content Hdec Hread.
  vm_compute in Hdec. injection Hdec as <-.
  vm_compute in Hread. injection Hread as <-.
  reflexivity.
Defined.

Lemma EditFile_undo_witness :
  @EditFile Sample.unmarshal_EditFileInput
    (Sample.edit_input "notes.txt" "there" "world")
    (<["notes.txt" := File true true "hello there"]> Sample.fs)
  = (Ok "File edited successfully", Sample.fs).
Proof.
  apply (@EditFile_undo Sample.unmarshal_EditFileInput
           (Sample.edit_input "notes.txt" "world" "there")
           (Sample.edit_input "notes.txt" "there" "world") Sample.fs
           {| EditFileInput_Path := "notes.txt"; EditFileInput_OldStr := "world";
              EditFileInput_NewStr := "there" |}
           "File edited successfully"
           (<["notes.txt" := File true true "hello there"]> Sample.fs)
           "hello world" 6%nat);
    reflexivity.
Defined.

(* ===================================================================== *)
(** * More on [list_files] *)

Lemma ListFiles_walkFn_no_error dir rel n files :
  exists files',
    ListFiles_walkFn dir (walk_path dir rel) (Some n) None files = (None, files').
Proof.
  unfold ListFiles_walkFn. destruct rel as [|name rel].
  - change (walk_path dir []) with dir. rewrite Rel_root. simpl. by eexists.
  - rewrite Rel_walk_path by done.
    destruct (negb _); [destruct (from_option IsDir false (Some n))|];
      by eexists.
Qed.

(** A directory that cannot be listed, anywhere in the tree, stops the
    walk with an error. *)
Lemma walk_untraversable dir n :
  forall rel files,
    traversable n = false ->
    exists err files',
      walk (ListFiles_walkFn dir) (walk_path dir rel) n files = (Some err, files').
Proof.
  induction n as [readable writable content|listable names IH]
    using node_tree_ind; intros rel files Htrav; [discriminate|].
  destruct listable.
  - simpl in Htrav. rewrite walk_Dir_listable.
    destruct (ListFiles_walkFn_no_error dir rel (Dir true names) files)
      as [files1 ->].
    generalize files1. clear files files1.
    induction names as [|[name child] names IHnames]; intros files;
      [discriminate|].
    apply Forall_cons_1 in IH as [IHchild IH]. simpl in IHchild.
    simpl in Htrav. simpl walk_names. rewrite <- walk_path_snoc.
    destruct (traversable child) eqn:Hchild.
    + destruct (walk _ (walk_path dir (rel ++ [name])) child files)
        as [[err|] files2]; [by eexists _, _|].
      by apply IHnames.
    + destruct (IHchild (rel ++ [name]) files eq_refl) as (err & files2 & ->).
      by eexists _, _.
  - rewrite walk_Dir_unlistable. by eexists _, _.
Qed.

Lemma valid_name_no_trailing_separator name :
  valid_name name = true -> name <> "" /\ ends_with_separator name = false.
Proof.
  unfold valid_name. intros H.
  apply andb_prop in H as [H Hsep]. apply andb_prop in H as [H _].
  apply andb_prop in H as [Hne _].
  apply negb_true_iff in Hne, Hsep. apply String.eqb_neq in Hne.
  split; [done|]. clear Hne.
  induction name as [|c name IH]; [done|].
  simpl in Hsep. apply orb_false_elim in Hsep as [Hc Hsep].
  destruct name as [|d name]; [done|]. by apply IH.
Qed.

Lemma ends_with_separator_append s t :
  t <> "" -> ends_with_separator (s +:+ t) = ends_with_separator t.
Proof.
  intros Ht. induction s as [|c s IH]; [done|].
  rewrite append_String. simpl.
  destruct (s +:+ t) eqn:Hst; [|done].
  destruct s; [by rewrite append_empty_l in Hst|discriminate].
Qed.

(** Valid names, joined, do not end with the separator. *)
Lemma concat_valid_names_no_trailing_separator rel :
  rel <> [] ->
  Forall (fun name => valid_name name = true) rel ->
  String.concat "/" rel <> "" /\
  ends_with_separator (String.concat "/" rel) = false.
Proof.
  induction rel as [|a rel IH]; [done|]. intros _ Hvalid.
  apply Forall_cons_1 in Hvalid as [Ha Hvalid].
  apply valid_name_no_trailing_separator in Ha as [Hne Hend].
  destruct rel as [|b rel]; [done|].
  destruct (IH ltac:(done) Hvalid) as [Hne' Hend'].
  rewrite concat_cons_cons. split.
  - destruct a; [done|]. by rewrite append_String.
  - rewrite ends_with_separator_append by done.
    by rewrite ends_with_separator_append.
Qed.

(** In a well-named tree every entry is reached through valid names. *)
Lemma reachable_valid_names root rel n :
  well_named root = true ->
  reachable root rel n ->
  rel <> [] /\ Forall (fun name => valid_name name = true) rel.
Proof.
  intros Hnamed Hreach. induction Hreach as [l names name n Hin|
                                              l names name d rel n Hin Hbelow IH];
    simpl in Hnamed; rewrite forallb_forall in Hnamed;
    apply Hnamed in Hin; simpl in Hin; apply andb_prop in Hin as [Hname Hd].
  - split; [done|]. by apply Forall_singleton.
  - split; [done|]. apply Forall_cons. split; [done|]. by apply IH.
Qed.

Section ListFiles_more_properties.
Context {unmarshal_ListFilesInput : Unmarshal ListFilesInput}.
Context {marshal_strings : Marshal (list string)}.

(** X6.  When a directory that cannot be listed lies anywhere at or
    below the given path, [list_files] fails: it returns no partial
    listing. *)
Theorem ListFiles_untraversable_fails input fs e root :
  json_Unmarshal input = Ok e ->
  fs !! ListFiles_dir e = Some root ->
  traversable root = false ->
  exists err,
    ListFiles input fs
    = (Err ("failed to list files in '" +:+ ListFiles_dir e +:+ "': " +:+ err),
       fs).
Proof.
  intros Hdec Hroot Htrav. unfold ListFiles. rewrite Hdec.
  fold (ListFiles_dir e). unfold filepath_Walk. rewrite Hroot.
  destruct (walk_untraversable (ListFiles_dir e) root [] [] Htrav)
    as (err & files' & Hwalk).
  change (walk_path (ListFiles_dir e) []) with (ListFiles_dir e) in Hwalk.
  rewrite Hwalk. by exists err.
Qed.

(** X7.  A path at which nothing is found makes [list_files] fail with
    the error of [os.Lstat]; a path that holds a regular file is no
    error: the call returns the encoding of the empty listing. *)
Theorem ListFiles_not_a_directory input fs e :
  json_Unmarshal input = Ok e ->
  (fs !! ListFiles_dir e = None ->
   ListFiles input fs
   = (Err ("failed to list files in '" +:+ ListFiles_dir e +:+ "': lstat "
           +:+ ListFiles_dir e +:+ ": no such file or directory"), fs)) /\
  (forall readable writable content,
      fs !! ListFiles_dir e = Some (File readable writable content) ->
      ListFiles input fs = (ListFiles_result [], fs)).
Proof.
  intros Hdec. split.
  - intros Hnone. unfold ListFiles. rewrite Hdec. fold (ListFiles_dir e).
    unfold filepath_Walk. by rewrite Hnone.
  - intros readable writable content Hfile. unfold ListFiles. rewrite Hdec.
    fold (ListFiles_dir e). unfold filepath_Walk. rewrite Hfile.
    rewrite walk_File. unfold ListFiles_walkFn. rewrite Rel_root. simpl.
    unfold ListFiles_result. by destruct (json_Marshal []).
Qed.

(** X8.  In the listing [list_files] returns for a traversable
    directory, a name ends with the separator exactly when it is the
    name of a directory: the marker cannot be mistaken. *)
Theorem ListFiles_marker_means_directory input fs e listable names :
  json_Unmarshal input = Ok e ->
  fs !! ListFiles_dir e = Some (Dir listable names) ->
  traversable (Dir listable names) = true ->
  well_named (Dir listable names) = true ->
  ListFiles input fs
  = (ListFiles_result (listing [] (Dir listable names)), fs) /\
  (forall s,
      In s (listing [] (Dir listable names)) ->
      (ends_with_separator s = true <->
       exists rel d,
         reachable (Dir listable names) rel d /\ IsDir d = true /\
         s = String.concat "/" rel +:+ "/")).
Proof.
  intros Hdec Hroot Htrav Hnamed. split.
  - unfold ListFiles. rewrite Hdec. fold (ListFiles_dir e).
    unfold filepath_Walk. rewrite Hroot.
    pose proof (walk_listing (ListFiles_dir e) (Dir listable names) [] [])
      as Hwalk.
    change (walk_path (ListFiles_dir e) []) with (ListFiles_dir e) in Hwalk.
    rewrite Hwalk by done. simpl app. unfold ListFiles_result.
    by destruct (json_Marshal _).
  - intros s Hin.
    apply (In_listing (Dir listable names) [] s) in Hin
      as (rel & n & Hreach & ->). simpl app.
    destruct (reachable_valid_names _ _ _ Hnamed Hreach) as [Hrel Hvalid].
    destruct (concat_valid_names_no_trailing_separator rel Hrel Hvalid)
      as [Hne Hend].
    unfold entry_name. destruct (IsDir n) eqn:Hdir.
    + split; [|by rewrite ends_with_separator_append].
      intros _. by exists rel, n.
    + rewrite Hend. split; [discriminate|].
      intros (rel' & d & _ & _ & Heq). exfalso.
      apply (f_equal ends_with_separator) in Heq.
      rewrite Hend, ends_with_separator_append in Heq; done.
Qed.

End ListFiles_more_properties.

Lemma ListFiles_untraversable_fails_witness :
  exists err,
    @ListFiles Sample.unmarshal_ListFilesInput Sample.marshal_strings
      (Sample_more.read_input "vault")
      (<["vault" := Dir true [("open", Dir true []); ("shut", Dir false [])]]>
         Sample.fs)
    = (Err ("failed to list files in 'vault': " +:+ err),
       <["vault" := Dir true [("open", Dir true []); ("shut", Dir false [])]]>
         Sample.fs).
Proof.
  apply (@ListFiles_untraversable_fails Sample.unmarshal_ListFilesInput
           Sample.marshal_strings (Sample_more.read_input "vault")
           (<["vault" := Dir true [("open", Dir true []); ("shut", Dir false [])]]>
              Sample.fs)
           {| ListFilesInput_Path := "vault" |}
           (Dir true [("open", Dir true []); ("shut", Dir false [])]));
    reflexivity.
Defined.

Lemma ListFiles_not_a_directory_witness :
  @ListFiles Sample.unmarshal_ListFilesInput Sample.marshal_strings
    (Sample_more.read_input "nowhere") Sample.fs
  = (Err "failed to list files in 'nowhere': lstat nowhere: no such file or directory",
     Sample.fs) /\
  @ListFiles Sample.unmarshal_ListFilesInput Sample.marshal_strings
    (Sample_more.read_input "notes.txt") Sample.fs
  = (Ok "null", Sample.fs).
Proof.
  split.
  - apply (@ListFiles_not_a_directory Sample.unmarshal_ListFilesInput
             Sample.marshal_strings (Sample_more.read_input "nowhere") Sample.fs
             {| ListFilesInput_Path := "nowhere" |} eq_refl).
    reflexivity.
  - apply (proj2 (@ListFiles_not_a_directory Sample.unmarshal_ListFilesInput
                    Sample.marshal_strings (Sample_more.read_input "notes.txt")
                    Sample.fs {| ListFilesInput_Path := "notes.txt" |} eq_refl)
             true true "hello world").
    reflexivity.
Defined.

Lemma ListFiles_marker_means_directory_witness :
  ends_with_separator "sub/" = true <->
  exists rel d,
    reachable Sample.project rel d /\ IsDir d = true /\
    "sub/" = String.concat "/" rel +:+ "/".
Proof.
  apply (proj2 (@ListFiles_marker_means_directory
                  Sample.unmarshal_ListFilesInput
                  Sample.marshal_strings (Sample_more.read_input "project")
                  Sample.fs {| ListFilesInput_Path := "project" |} true
                  [("a.txt", File true true "alpha");
                   ("sub", Dir true [("b.txt", File true true "beta")])]
                  eq_refl eq_refl eq_refl eq_refl) "sub/").
  simpl. tauto.
Defined.

(* ===================================================================== *)
(** * More on [ripgrep_search] *)

(** X9.  The arguments [ripgrep_search] gives to [rg] are options, then
    the marker [--] that ends the options, then the query, then exactly
    one path, the given one or [.]; no option is itself the marker, so
    the query and the path are never read as options. *)
Theorem RipGrepSearch_args_shape rgInput :
  RipGrepSearch_args rgInput
  = RipGrepSearch_flags rgInput
    ++ ["--"; RipGrepInput_Query rgInput;
        if String.eqb (RipGrepInput_Path rgInput) "" then "."
        else RipGrepInput_Path rgInput] /\
  ~ In "--" (RipGrepSearch_flags rgInput) /\
  (In ("--max-count=" +:+ pretty (RipGrepInput_MaxCount rgInput))
      (RipGrepSearch_flags rgInput) <-> 0 < RipGrepInput_MaxCount rgInput).
Proof.
  unfold RipGrepSearch_args, RipGrepSearch_flags.
  destruct (RipGrepInput_IgnoreCase rgInput);
    destruct (0 <? RipGrepInput_MaxCount rgInput) eqn:Hmax;
    destruct (String.eqb (RipGrepInput_Path rgInput) "");
    (split; [reflexivity|]); (split; [simpl; intros H;
      repeat (destruct H as [H|H]; [discriminate H|]); exact H|]);
    (apply Z.ltb_lt in Hmax || apply Z.ltb_ge in Hmax);
    (split; [intros H; simpl in H;
             repeat (destruct H as [H|H]; [try discriminate H; try lia|]);
             try lia; try done
            |intros H; try lia; simpl; tauto]).
Qed.

Section RipGrepSearch_more_properties.
Context {unmarshal_RipGrepInput : Unmarshal RipGrepInput}.
Context {exec : Exec}.

(** X10.  [ripgrep_search] succeeds exactly when the process ran without
    error or exited with code 1; its text is then the output of the
    process, or the words that nothing matched when there is no output,
    and is never empty.  It returns the file system it was given. *)
Theorem RipGrepSearch_succeeds_iff input fs rgInput out err :
  json_Unmarshal input = Ok rgInput ->
  exec_Output "rg" (RipGrepSearch_args rgInput) fs = (out, err) ->
  snd (RipGrepSearch input fs) = fs /\
  ((exists text, fst (RipGrepSearch input fs) = Ok text) <->
   (err = None \/ exists Stderr, err = Some (ExitError 1 Stderr))) /\
  (forall text,
      fst (RipGrepSearch input fs) = Ok text ->
      text <> "" /\
      (text = "No matches found." \/ (err = None /\ text = out))).
Proof.
  intros Hdec Hrun. rewrite (RipGrepSearch_decoded _ _ _ Hdec), Hrun.
  destruct err as [[code Stderr|oerr]|].
  - destruct (code =? 1) eqn:Hcode.
    + apply Z.eqb_eq in Hcode as ->. split; [done|]. split.
      * split; [|by eexists]. intros _. right. by exists Stderr.
      * intros text [= <-]. split; [done|by left].
    + apply Z.eqb_neq in Hcode.
      destruct (negb (String.eqb Stderr "")); (split; [done|]); split;
        try (by intros text [=]);
        (split; [by intros [text [=]]|]);
        (intros [[=]|[Stderr' [= Hc _]]]; by destruct Hcode).
  - split; [done|]. split; [|by intros text [=]].
    split; [by intros [text [=]]|]. by intros [[=]|[Stderr' [=]]].
  - destruct out as [|c out]; simpl.
    + split; [done|]. split; [split; [by left|by eexists]|].
      intros text [= <-]. split; [done|by left].
    + split; [done|]. split; [split; [by left|by eexists]|].
      intros text [= <-]. split; [done|by right].
Qed.

End RipGrepSearch_more_properties.

Lemma RipGrepSearch_succeeds_iff_witness :
  exists text,
    fst (@RipGrepSearch Sample.unmarshal_RipGrepInput Sample.exec
           (Sample.object [("query", "needle")]) Sample.fs)
    = Ok text.
Proof.
  apply (@RipGrepSearch_succeeds_iff Sample.unmarshal_RipGrepInput Sample.exec
           (Sample.object [("query", "needle")]) Sample.fs
           {| RipGrepInput_Query := "needle"; RipGrepInput_Path := "";
              RipGrepInput_IgnoreCase := false; RipGrepInput_MaxCount := 0 |}
           "" (Some (ExitError 1 "")) eq_refl eq_refl).
  right. by exists "".
Defined.

(* ===================================================================== *)
(** * More on tool dispatch *)

Lemma lookup_tool_first before tool after :
  Forall (fun t => Name t <> Name tool) before ->
  lookup_tool (before ++ tool :: after) (Name tool) = Some tool.
Proof.
  induction before as [|t before IH]; intros Hbefore; simpl.
  - by rewrite String.eqb_refl.
  - apply Forall_cons_1 in Hbefore as [Ht Hbefore].
    apply String.eqb_neq in Ht. rewrite Ht. by apply IH.
Qed.

(** X11.  Of several registered tools with one name, dispatch runs the
    first: the call behaves as if that tool were the only one
    registered. *)
Theorem executeTool_first_registered_wins a before tool after id input w :
  tools a = before ++ tool :: after ->
  Forall (fun t => Name t <> Name tool) before ->
  executeTool a id (Name tool) input w
  = executeTool
      {| client := client a; getUserMessage := getUserMessage a;
         tools := [tool] |} id (Name tool) input w.
Proof.
  intros Htools Hbefore. unfold executeTool. rewrite Htools.
  rewrite lookup_tool_first by done. simpl. by rewrite String.eqb_refl.
Qed.

(** X12.  The result block of a dispatch is marked as an error exactly
    when no tool of that name is registered or the tool's function
    returned an error; when it is not, its text is what the function
    returned. *)
Theorem executeTool_is_error_iff a id name input w text isError w' :
  executeTool a id name input w = (ToolResultBlockParam id text isError, w') ->
  (isError = false <->
   exists toolDef fs',
     lookup_tool (tools a) name = Some toolDef /\
     Function toolDef input (w_fs w) = (Ok text, fs')).
Proof.
  destruct (lookup_tool (tools a) name) as [toolDef|] eqn:Hfound.
  - destruct (Function toolDef input (w_fs w)) as [[response|err] fs'] eqn:Hrun.
    + rewrite (executeTool_Ok _ _ _ _ _ _ _ _ Hfound Hrun).
      intros [= <- <- _]. split; [|done]. intros _. by exists toolDef, fs'.
    + rewrite (executeTool_Err _ _ _ _ _ _ _ _ Hfound Hrun).
      intros [= <- <- _]. split; [done|].
      intros (toolDef' & fs'' & [= <-] & Hok). rewrite Hrun in Hok.
      discriminate.
  - rewrite (executeTool_not_found _ _ _ _ _ Hfound).
    intros [= <- <- _]. split; [done|]. by intros (toolDef' & fs'' & [=] & _).
Qed.

Section Registry_properties.
Context {unmarshal_ReadFileInput : Unmarshal ReadFileInput}.
Context {unmarshal_ListFilesInput : Unmarshal ListFilesInput}.
Context {unmarshal_EditFileInput : Unmarshal EditFileInput}.
Context {unmarshal_RipGrepInput : Unmarshal RipGrepInput}.
Context {marshal_strings : Marshal (list string)}.
Context {exec : Exec}.

Lemma ReadFile_keeps_files input fs : snd (ReadFile input fs) = fs.
Proof.
  unfold ReadFile. destruct (json_Unmarshal input) as [r|err]; [|done].
  by destruct (os_ReadFile _ fs).
Qed.

Lemma ListFiles_keeps_files input fs : snd (ListFiles input fs) = fs.
Proof.
  unfold ListFiles. destruct (json_Unmarshal input) as [l|err]; [|done].
  destruct (filepath_Walk _ _ fs []) as [[err|] files]; [done|].
  by destruct (json_Marshal files).
Qed.

Lemma RipGrepSearch_keeps_files input fs : snd (RipGrepSearch input fs) = fs.
Proof.
  unfold RipGrepSearch. destruct (json_Unmarshal input) as [rg|err]; [|done].
  destruct (exec_Output _ _ fs) as [out [[code Stderr|oerr]|]]; [|done|].
  - destruct (code =? 1); [done|]. by destruct (negb _).
  - by destruct (String.length out =? 0)%nat.
Qed.

(** The files after a dispatch are those the tool's function left. *)
Lemma executeTool_files a id name input w :
  w_fs (snd (executeTool a id name input w))
  = match lookup_tool (tools a) name with
    | Some toolDef => snd (Function toolDef input (w_fs w))
    | None => w_fs w
    end /\
  w_stdin (snd (executeTool a id name input w)) = w_stdin w.
Proof.
  destruct (lookup_tool (tools a) name) as [toolDef|] eqn:Hfound.
  - destruct (Function toolDef input (w_fs w)) as [[response|err] fs'] eqn:Hrun.
    + by rewrite (executeTool_Ok _ _ _ _ _ _ _ _ Hfound Hrun).
    + by rewrite (executeTool_Err _ _ _ _ _ _ _ _ Hfound Hrun).
  - by rewrite (executeTool_not_found _ _ _ _ _ Hfound).
Qed.

(** With the registry of [GetTools], only [edit_file] is a tool that
    writes. *)
Lemma executeTool_GetTools_files a id name input w :
  tools a = GetTools ->
  name <> "edit_file" ->
  w_fs (snd (executeTool a id name input w)) = w_fs w.
Proof.
  intros Htools Hname.
  destruct (executeTool_files a id name input w) as [-> _].
  rewrite Htools. change (lookup_tool GetTools name) with
    (if String.eqb "read_file" name then Some ReadFileDefinition
     else if String.eqb "list_files" name then Some ListFilesDefinition
     else if String.eqb "edit_file" name then Some EditFileDefinition
     else if String.eqb "ripgrep_search" name then Some RipGrepToolDefinition
     else None).
  destruct (String.eqb "read_file" name); [apply ReadFile_keeps_files|].
  destruct (String.eqb "list_files" name); [apply ListFiles_keeps_files|].
  destruct (String.eqb "edit_file" name) eqn:Hedit.
  { apply String.eqb_eq in Hedit. by destruct Hname. }
  by destruct (String.eqb "ripgrep_search" name);
    [apply RipGrepSearch_keeps_files|].
Qed.

(** X13.  With the registry of [GetTools], a tool call changes the file
    system only when it is a call of [edit_file] whose input decodes,
    whose file can be read and whose replacement changes what was read:
    a call of any other name, registered or not, leaves the file system
    as it was, and so does a call of [edit_file] that does not come to
    its write. *)
Theorem executeTool_only_edit_file_writes a id name input w :
  tools a = GetTools ->
  (name <> "edit_file" ->
   w_fs (snd (executeTool a id name input w)) = w_fs w) /\
  ((forall e content,
       json_Unmarshal input = Ok e ->
       os_ReadFile (EditFileInput_Path e) (w_fs w) = Ok content ->
       strings_Replace1 content (EditFileInput_OldStr e)
         (EditFileInput_NewStr e) = content) ->
   w_fs (snd (executeTool a id name input w)) = w_fs w).
Proof.
  intros Htools.
  assert (name <> "edit_file" ->
          w_fs (snd (executeTool a id name input w)) = w_fs w) as Hother.
  { intros Hname.
    destruct (executeTool_files a id name input w) as [-> _].
    rewrite Htools. change (lookup_tool GetTools name) with
      (if String.eqb "read_file" name then Some ReadFileDefinition
       else if String.eqb "list_files" name then Some ListFilesDefinition
       else if String.eqb "edit_file" name then Some EditFileDefinition
       else if String.eqb "ripgrep_search" name then Some RipGrepToolDefinition
       else None).
    destruct (String.eqb "read_file" name); [apply ReadFile_keeps_files|].
    destruct (String.eqb "list_files" name); [apply ListFiles_keeps_files|].
    destruct (String.eqb "edit_file" name) eqn:Hedit.
    { apply String.eqb_eq in Hedit. by destruct Hname. }
    by destruct (String.eqb "ripgrep_search" name);
      [apply RipGrepSearch_keeps_files|]. }
  split; [exact Hother|]. intros Hbefore.
  destruct (String.eqb name "edit_file") eqn:Hname.
  - apply String.eqb_eq in Hname as ->.
    destruct (executeTool_files a id "edit_file" input w) as [-> _].
    rewrite Htools. change (lookup_tool GetTools "edit_file")
      with (Some EditFileDefinition). cbn [Function EditFileDefinition].
    destruct (EditFile_before_write input (w_fs w) Hbefore) as [err ->].
    reflexivity.
  - apply String.eqb_neq in Hname. by apply Hother.
Qed.

Lemma dispatch_in_order_keeps_files a uses :
  tools a = GetTools ->
  Forall (fun content => cb_Name content <> "edit_file") uses ->
  forall w, w_fs (snd (dispatch_in_order a uses w)) = w_fs w.
Proof.
  intros Htools. induction uses as [|content uses IH]; intros Huses w; [done|].
  apply Forall_cons_1 in Huses as [Hname Huses].
  rewrite dispatch_in_order_cons.
  pose proof (executeTool_GetTools_files a (cb_ID content)
                (cb_Name content) (cb_Input content) w Htools Hname) as Hfs.
  destruct (executeTool a _ _ _ w) as [result w1]. simpl in Hfs.
  specialize (IH Huses w1).
  destruct (dispatch_in_order a uses w1) as [results w2]. simpl in *.
  by rewrite IH.
Qed.

(** X14.  With the registry of [GetTools], an iteration whose response
    asks for no [edit_file] call leaves every file as it was, whatever
    else the model asked for. *)
Theorem await_model_response_keeps_files a sent message w :
  tools a = GetTools ->
  runInference a sent = Ok message ->
  Forall (fun content => cb_Name content <> "edit_file") (tool_uses message) ->
  w_fs (snd (await_model_response a sent w)) = w_fs w.
Proof.
  intros Htools Hinfer Huses.
  destruct (await_model_response_Ok a sent message w Hinfer)
    as (w' & events & -> & [Hfs _] & _).
  simpl. rewrite Hfs. by apply dispatch_in_order_keeps_files.
Qed.

End Registry_properties.

Lemma executeTool_first_registered_wins_witness :
  executeTool Sample.agent "toolu_4" "edit_file"
    (Sample.edit_input "notes.txt" "world" "there") Sample.world
  = executeTool
      {| client := Sample.client; getUserMessage := main_getUserMessage;
         tools := [@EditFileDefinition Sample.unmarshal_EditFileInput] |}
      "toolu_4" "edit_file"
      (Sample.edit_input "notes.txt" "world" "there") Sample.world.
Proof.
  apply (executeTool_first_registered_wins Sample.agent
           [@ReadFileDefinition Sample.unmarshal_ReadFileInput;
            @ListFilesDefinition Sample.unmarshal_ListFilesInput
              Sample.marshal_strings]
           (@EditFileDefinition Sample.unmarshal_EditFileInput)
           [@RipGrepToolDefinition Sample.unmarshal_RipGrepInput Sample.exec]
           "toolu_4" (Sample.edit_input "notes.txt" "world" "there")
           Sample.world eq_refl).
  repeat constructor; discriminate.
Defined.

Lemma executeTool_is_error_iff_witness :
  exists toolDef fs',
    lookup_tool (tools Sample.agent) "read_file" = Some toolDef /\
    Function toolDef (Sample_more.read_input "notes.txt") Sample.fs
    = (Ok "hello world", fs').
Proof.
  apply (executeTool_is_error_iff Sample.agent "toolu_1" "read_file"
           (Sample_more.read_input "notes.txt") Sample.world "hello world" false
           {| w_fs := Sample.fs; w_stdin := ["what is in notes.txt?"];
              w_trace := [EvToolResult "read_file" "hello world"] |} eq_refl).
  reflexivity.
Defined.

Lemma executeTool_only_edit_file_writes_witness :
  w_fs (snd (executeTool Sample.agent "toolu_1" "read_file"
               (Sample_more.read_input "notes.txt") Sample.world))
  = Sample.fs /\
  w_fs (snd (executeTool Sample.agent "toolu_4" "edit_file"
               (Sample.edit_input "notes.txt" "moon" "there") Sample.world))
  = Sample.fs.
Proof.
  split.
  - apply (proj1 (@executeTool_only_edit_file_writes
             Sample.unmarshal_ReadFileInput Sample.unmarshal_ListFilesInput
             Sample.unmarshal_EditFileInput Sample.unmarshal_RipGrepInput
             Sample.marshal_strings Sample.exec
             Sample.agent "toolu_1" "read_file"
             (Sample_more.read_input "notes.txt") Sample.world eq_refl)).
    discriminate.
  - apply (proj2 (@executeTool_only_edit_file_writes
             Sample.unmarshal_ReadFileInput Sample.unmarshal_ListFilesInput
             Sample.unmarshal_EditFileInput Sample.unmarshal_RipGrepInput
             Sample.marshal_strings Sample.exec
             Sample.agent "toolu_4" "edit_file"
             (Sample.edit_input "notes.txt" "moon" "there") Sample.world
             eq_refl)).
    intros e content Hdec Hread.
    vm_compute in Hdec. injection Hdec as <-.
    vm_compute in Hread. injection Hread as <-.
    reflexivity.
Defined.

Lemma await_model_response_keeps_files_witness :
  w_fs (snd (await_model_response Sample.agent Sample.greeting Sample.world))
  = Sample.fs.
Proof.
  apply (@await_model_response_keeps_files
           Sample.unmarshal_ReadFileInput Sample.unmarshal_ListFilesInput
           Sample.unmarshal_EditFileInput Sample.unmarshal_RipGrepInput
           Sample.marshal_strings Sample.exec
           Sample.agent Sample.greeting Sample.first_response Sample.world
           eq_refl eq_refl).
  repeat constructor; discriminate.
Defined.

(* ===================================================================== *)
(** * More on the turn loop *)

(** The end of an iteration whose response holds no [tool_use] block. *)
Lemma await_model_response_asks_user a sent message w :
  runInference a sent = Ok message ->
  tool_uses message = [] ->
  exists w',
    await_model_response a sent w
    = (Next {| conversation := sent ++ [Message_ToParam message];
               readUserInput := true |}, w')
    /\ w_fs w' = w_fs w
    /\ w_stdin w' = w_stdin w
    /\ tool_requests (w_trace w') = tool_requests (w_trace w).
Proof.
  intros Hinfer Hnone.
  destruct (await_model_response_Ok a sent message w Hinfer)
    as (w' & events & Hresp & [Hfs Hstdin] & Hreq & _).
  unfold tool_results in Hresp. rewrite Hnone in Hresp, Hfs, Hstdin, Hreq.
  simpl in *. exists w'. by rewrite app_nil_r in Hreq.
Qed.

(** X15.  A response without a [tool_use] block ends the iteration with
    the conversation sent and the response, and the user is asked next;
    no tool was requested, no file touched and no user input read. *)
Theorem await_model_response_without_tool_use a sent message w :
  runInference a sent = Ok message ->
  tool_uses message = [] ->
  exists w',
    await_model_response a sent w
    = (Next {| conversation := sent ++ [Message_ToParam message];
               readUserInput := true |}, w')
    /\ w_fs w' = w_fs w
    /\ w_stdin w' = w_stdin w
    /\ tool_requests (w_trace w') = tool_requests (w_trace w).
Proof.
  intros Hinfer Hnone.
  destruct (await_model_response_Ok a sent message w Hinfer)
    as (w' & events & Hresp & [Hfs Hstdin] & Hreq & _).
  unfold tool_results in Hresp. rewrite Hnone in Hresp, Hfs, Hstdin, Hreq.
  simpl in *. exists w'. by rewrite app_nil_r in Hreq.
Qed.

(** The loop ends at the first inference call that fails. *)
Lemma loop_inference_error a st w sent w1 err fuel :
  await_user_input a st w = (Some sent, w1) ->
  runInference a sent = Err err ->
  loop (S fuel) a st w
  = (Returned (Some ("error running inference: " +:+ err)),
     {| w_fs := w_fs w1; w_stdin := w_stdin w1;
        w_trace := w_trace w1 ++ [EvInference sent] |}).
Proof.
  intros Hread Hinfer. simpl. unfold bind at 1. unfold iteration.
  unfold bind at 1. rewrite Hread. unfold await_model_response.
  unfold bind at 1. rewrite emit_trace, Hinfer. reflexivity.
Qed.

(** X16.  When the inference call of an iteration fails, the run
    returns that error, wrapped, however many iterations were still
    allowed; after the call nothing more is done: no tool runs and
    nothing else is logged. *)
Theorem loop_returns_inference_error a st w sent w1 err fuel :
  await_user_input a st w = (Some sent, w1) ->
  runInference a sent = Err err ->
  loop (S fuel) a st w
  = (Returned (Some ("error running inference: " +:+ err)),
     {| w_fs := w_fs w1; w_stdin := w_stdin w1;
        w_trace := w_trace w1 ++ [EvInference sent] |}).
Proof.
  intros Hread Hinfer. simpl. unfold bind at 1. unfold iteration.
  unfold bind at 1. rewrite Hread. unfold await_model_response.
  unfold bind at 1. rewrite emit_trace, Hinfer. reflexivity.
Qed.

Lemma loop_returns_inference_error_witness :
  loop 1
    {| client := Sample_more.failing_client;
       getUserMessage := main_getUserMessage; tools := Sample.GetTools |}
    {| conversation := []; readUserInput := true |} Sample.world
  = (Returned (Some "error running inference: status 529"),
     {| w_fs := Sample.fs; w_stdin := [];
        w_trace := [EvPrompt; EvInference Sample.greeting] |}).
Proof.
  apply (loop_returns_inference_error
           {| client := Sample_more.failing_client;
              getUserMessage := main_getUserMessage;
              tools := Sample.GetTools |}
           {| conversation := []; readUserInput := true |} Sample.world
           Sample.greeting
           {| w_fs := Sample.fs; w_stdin := []; w_trace := [EvPrompt] |}
           "status 529" 0);
    reflexivity.
Defined.

Lemma await_model_response_without_tool_use_witness :
  exists w',
    await_model_response Sample_more.talking_agent Sample.greeting Sample.world
    = (Next {| conversation :=
                 Sample.greeting ++ [Message_ToParam Sample.second_response];
               readUserInput := true |}, w')
    /\ w_fs w' = Sample.fs
    /\ w_stdin w' = ["what is in notes.txt?"]
    /\ tool_requests (w_trace w') = [].
Proof.
  apply (await_model_response_without_tool_use Sample_more.talking_agent
           Sample.greeting Sample.second_response Sample.world);
    reflexivity.
Defined.

Lemma alternates_app user_next messages1 messages2 :
  alternates user_next (messages1 ++ messages2)
  = alternates user_next messages1
    && alternates (if Nat.even (length messages1) then user_next
                   else negb user_next) messages2.
Proof.
  revert user_next.
  induction messages1 as [|message messages1 IH]; intros user_next; [done|].
  cbn [app alternates length]. rewrite IH, <- andb_assoc. do 2 f_equal.
  rewrite Nat.even_succ, <- Nat.negb_even.
  destruct (Nat.even (length messages1)); simpl; [done|].
  by rewrite negb_involutive.
Qed.

Lemma await_user_input_awaits_assistant a st w sent w1 :
  turn_invariant st ->
  await_user_input a st w = (Some sent, w1) ->
  awaits_assistant sent.
Proof.
  intros [Halt Hread]. unfold await_user_input.
  destruct (readUserInput st).
  - unfold bind. destruct (emit EvPrompt w) as [u w0].
    destruct (getUserMessage a w0) as [[userInput ok] w2].
    destruct ok; simpl; [|discriminate]. intros [= <- _]. split.
    + by rewrite alternates_app, Halt, <- Hread.
    + rewrite length_app. simpl. rewrite Nat.add_1_r, Nat.odd_succ. done.
  - intros [= <- _]. split; [done|]. by rewrite <- Nat.negb_even, <- Hread.
Qed.

Lemma await_model_response_turn_invariant a sent w st' w' :
  awaits_assistant sent ->
  await_model_response a sent w = (Next st', w') ->
  turn_invariant st'.
Proof.
  intros [Halt Hodd].
  assert (Heven : Nat.even (length sent) = false)
    by (by rewrite <- Nat.negb_odd, Hodd).
  destruct (runInference a sent) as [message|err] eqn:Hinfer.
  - destruct (await_model_response_Ok a sent message w Hinfer)
      as (w1 & events & -> & _).
    intros [= <- _]. destruct (tool_results a message w); split; simpl.
    + by rewrite alternates_app, Halt, Heven.
    + rewrite length_app. simpl. by rewrite Nat.add_1_r, Nat.even_succ.
    + by rewrite alternates_app, Halt, Heven.
    + rewrite length_app. simpl.
      replace (length sent + 2)%nat with (S (S (length sent))) by lia.
      by rewrite Nat.even_succ_succ.
  - unfold await_model_response. rewrite Hinfer. discriminate.
Qed.

Lemma iteration_turn_invariant a st w st' w' :
  turn_invariant st ->
  iteration a st w = (Next st', w') ->
  turn_invariant st'.
Proof.
  intros Hinv. unfold iteration. unfold bind at 1.
  destruct (await_user_input a st w) as [[sent|] w1] eqn:Hread;
    [|discriminate].
  apply await_model_response_turn_invariant.
  by eapply await_user_input_awaits_assistant.
Qed.

Lemma loop_turn_invariant a fuel :
  forall st w st' w',
    turn_invariant st ->
    loop fuel a st w = (Running st', w') ->
    turn_invariant st'.
Proof.
  induction fuel as [|fuel IH]; intros st w st' w' Hinv; simpl.
  - by intros [= <- _].
  - unfold bind at 1.
    destruct (iteration a st w) as [[| err | st1] w1] eqn:Hiter;
      try discriminate.
    apply IH. by eapply iteration_turn_invariant.
Qed.

(** X17.  However long [Run] has been going, the roles of its
    conversation alternate, beginning with the user's, and the user is
    asked next exactly when the conversation is empty or ends with a
    message of the assistant. *)
Theorem Run_keeps_turn_invariant fuel a w st' w' :
  Run fuel a w = (Running st', w') -> turn_invariant st'.
Proof.
  unfold Run. unfold bind at 1. rewrite emit_trace.
  by apply loop_turn_invariant.
Qed.

Lemma Run_keeps_turn_invariant_witness :
  turn_invariant
    {| conversation :=
         Sample.greeting
         ++ [Message_ToParam Sample.first_response;
             NewUserMessage
               [ToolResultBlockParam "toolu_1" "hello world" false;
                ToolResultBlockParam "toolu_2" "tool not found" true]];
       readUserInput := false |}.
Proof.
  apply (Run_keeps_turn_invariant 1 Sample.agent Sample.world _
           (snd (Run 1 Sample.agent Sample.world))).
  reflexivity.
Defined.

Lemma sent_conversations_app trace1 trace2 :
  sent_conversations (trace1 ++ trace2)
  = sent_conversations trace1 ++ sent_conversations trace2.
Proof.
  induction trace1 as [|e trace1 IH]; [done|].
  destruct e; simpl; by rewrite IH.
Qed.

Lemma executeTool_sent_conversations a id name input w :
  sent_conversations (w_trace (snd (executeTool a id name input w)))
  = sent_conversations (w_trace w).
Proof.
  destruct (lookup_tool (tools a) name) as [toolDef|] eqn:Hfound.
  - destruct (Function toolDef input (w_fs w)) as [[response|err] fs'] eqn:Hrun.
    + rewrite (executeTool_Ok _ _ _ _ _ _ _ _ Hfound Hrun). simpl.
      by rewrite sent_conversations_app, app_nil_r.
    + rewrite (executeTool_Err _ _ _ _ _ _ _ _ Hfound Hrun). simpl.
      by rewrite sent_conversations_app, app_nil_r.
  - rewrite (executeTool_not_found _ _ _ _ _ Hfound). simpl.
    by rewrite sent_conversations_app, app_nil_r.
Qed.

(** The loop over the blocks of a response calls no inference. *)
Lemma range_Content_sent_conversations a contents :
  forall toolResults w,
    sent_conversations (w_trace (snd (range_Content a contents toolResults w)))
    = sent_conversations (w_trace w).
Proof.
  induction contents as [|content contents IH]; intros toolResults w; [done|].
  rewrite range_Content_cons.
  destruct (String.eqb (cb_Type content) "text").
  - unfold bind. rewrite emit_trace, IH. simpl.
    by rewrite sent_conversations_app, app_nil_r.
  - destruct (String.eqb (cb_Type content) "tool_use"); [|apply IH].
    unfold bind. rewrite emit_trace.
    match goal with
    | |- context [executeTool a ?id ?name ?input ?w0] =>
        pose proof (executeTool_sent_conversations a id name input w0) as Hexec;
        destruct (executeTool a id name input w0) as [result w1]
    end.
    rewrite IH. simpl in Hexec. rewrite Hexec. simpl.
    by rewrite sent_conversations_app, app_nil_r.
Qed.

(** The second phase sends exactly one conversation: the one it was
    given. *)
Lemma await_model_response_sent_conversations a sent w :
  sent_conversations (w_trace (snd (await_model_response a sent w)))
  = sent_conversations (w_trace w) ++ [sent].
Proof.
  unfold await_model_response. unfold bind at 1. rewrite emit_trace.
  destruct (runInference a sent) as [message|err].
  - unfold bind.
    match goal with
    | |- context [range_Content a (Content message) [] ?w0] =>
        pose proof (range_Content_sent_conversations a (Content message) [] w0)
          as Hrange;
        destruct (range_Content a (Content message) [] w0) as [toolResults w1]
    end.
    simpl in Hrange.
    destruct (length toolResults =? 0)%nat; simpl; rewrite Hrange;
      by rewrite sent_conversations_app.
  - simpl. by rewrite sent_conversations_app.
Qed.

Lemma await_user_input_sent_conversations a st w :
  (forall w0, w_trace (snd (getUserMessage a w0)) = w_trace w0) ->
  sent_conversations (w_trace (snd (await_user_input a st w)))
  = sent_conversations (w_trace w).
Proof.
  intros Hquiet. unfold await_user_input. destruct (readUserInput st); [|done].
  unfold bind. rewrite emit_trace.
  match goal with
  | |- context [getUserMessage a ?w0] =>
      pose proof (Hquiet w0) as Hh;
      destruct (getUserMessage a w0) as [[userInput ok] w1]
  end.
  simpl in Hh. destruct ok; simpl; rewrite Hh;
    by rewrite sent_conversations_app, app_nil_r.
Qed.

Lemma loop_sends_well_formed_conversations a fuel :
  (forall w0, w_trace (snd (getUserMessage a w0)) = w_trace w0) ->
  forall st w,
    turn_invariant st ->
    Forall awaits_assistant (sent_conversations (w_trace w)) ->
    Forall awaits_assistant
      (sent_conversations (w_trace (snd (loop fuel a st w)))).
Proof.
  intros Hquiet. induction fuel as [|fuel IH]; intros st w Hinv Hsent; [done|].
  simpl. unfold bind at 1. unfold iteration. unfold bind at 1.
  pose proof (await_user_input_sent_conversations a st w Hquiet) as Hread_sent.
  destruct (await_user_input a st w) as [[sent|] w1] eqn:Hread; simpl in *.
  - pose proof (await_user_input_awaits_assistant a st w sent w1 Hinv Hread)
      as Hgood.
    pose proof (await_model_response_sent_conversations a sent w1) as Hresp_sent.
    destruct (await_model_response a sent w1) as [[| err | st1] w2] eqn:Hresp;
      simpl in *.
    + rewrite Hresp_sent, Hread_sent. apply Forall_app_2; [done|].
      by apply Forall_singleton.
    + rewrite Hresp_sent, Hread_sent. apply Forall_app_2; [done|].
      by apply Forall_singleton.
    + apply IH.
      * by eapply await_model_response_turn_invariant.
      * rewrite Hresp_sent, Hread_sent. apply Forall_app_2; [done|].
        by apply Forall_singleton.
  - by rewrite Hread_sent.
Qed.

(** X18.  When the source of user input logs nothing of its own, every
    conversation that a run sends to the model has alternating roles,
    begins with a message of the user and ends with a message of the
    user. *)
Theorem Run_sends_well_formed_conversations fuel a w :
  (forall w0, w_trace (snd (getUserMessage a w0)) = w_trace w0) ->
  Forall awaits_assistant (sent_conversations (w_trace w)) ->
  Forall awaits_assistant
    (sent_conversations (w_trace (snd (Run fuel a w)))).
Proof.
  intros Hquiet Hsent. unfold Run. unfold bind at 1. rewrite emit_trace.
  apply loop_sends_well_formed_conversations; [done|done|].
  simpl. by rewrite sent_conversations_app, app_nil_r.
Qed.

Lemma main_getUserMessage_logs_nothing w :
  w_trace (snd (main_getUserMessage w)) = w_trace w.
Proof.
  unfold main_getUserMessage. destruct (w_stdin w) as [|line rest]; [done|].
  by destruct (Z.of_nat (String.length line) <? bufio_MaxScanTokenSize).
Qed.

Lemma Run_sends_well_formed_conversations_witness :
  Forall awaits_assistant
    (sent_conversations (w_trace (snd (Run 3 Sample.agent Sample.world)))).
Proof.
  apply (Run_sends_well_formed_conversations 3 Sample.agent Sample.world).
  - apply main_getUserMessage_logs_nothing.
  - apply List.Forall_nil.
Defined.

(** An iteration that asks the user and finds a line that the scanner
    delivers goes on to the model with that line appended as a user
    message. *)
Lemma iteration_reads_line a st w line rest :
  getUserMessage a = main_getUserMessage ->
  readUserInput st = true ->
  w_stdin w = line :: rest ->
  fits_scanner line ->
  iteration a st w
  = await_model_response a
      (conversation st ++ [NewUserMessage [NewTextBlock (bufio_dropCR line)]])
      {| w_fs := w_fs w; w_stdin := rest; w_trace := w_trace w ++ [EvPrompt] |}.
Proof.
  intros Hhandler Hread Hstdin Hfits. unfold iteration, await_user_input.
  rewrite Hread, Hhandler. unfold bind. rewrite emit_trace.
  unfold main_getUserMessage. cbn [w_stdin w_fs w_trace]. rewrite Hstdin.
  apply Z.ltb_lt in Hfits. by rewrite Hfits.
Qed.

(** An iteration that asks the user when the scanner delivers no line
    leaves the loop, after the prompt. *)
Lemma iteration_scanner_stops a st w :
  getUserMessage a = main_getUserMessage ->
  readUserInput st = true ->
  scanner_stops (w_stdin w) ->
  iteration a st w
  = (Break,
     {| w_fs := w_fs w; w_stdin := w_stdin w;
        w_trace := w_trace w ++ [EvPrompt] |}).
Proof.
  intros Hhandler Hread Hstops. unfold iteration, await_user_input.
  rewrite Hread, Hhandler. unfold bind. rewrite emit_trace.
  unfold main_getUserMessage. cbn [w_stdin w_fs w_trace].
  destruct (w_stdin w) as [|line rest]; [done|].
  destruct (Z.ltb_spec (Z.of_nat (String.length line)) bufio_MaxScanTokenSize)
    as [Hfits|_]; [by destruct Hstops|done].
Qed.

(** With the scanner of [main] as the source of user input and a model
    that answers every request and never asks for a tool, the loop
    takes one iteration per line the scanner delivers and one more to
    find that the scanner delivers no further line. *)
Lemma loop_talks_through_input a :
  getUserMessage a = main_getUserMessage ->
  (forall sent, exists message,
      runInference a sent = Ok message /\ tool_uses message = []) ->
  forall lines tail st w,
    readUserInput st = true ->
    w_stdin w = lines ++ tail ->
    Forall fits_scanner lines ->
    scanner_stops tail ->
    exists w',
      loop (S (length lines)) a st w = (Returned None, w')
      /\ w_stdin w' = tail
      /\ w_fs w' = w_fs w
      /\ length (sent_conversations (w_trace w'))
         = (length (sent_conversations (w_trace w)) + length lines)%nat.
Proof.
  intros Hhandler Hmodel.
  induction lines as [|line lines IH]; intros tail st w Hread Hstdin Hfit Hstops.
  - simpl in Hstdin. cbn [length].
    rewrite loop_S, (iteration_scanner_stops a st w Hhandler Hread)
      by (by rewrite Hstdin).
    eexists. split; [reflexivity|]. cbn [w_stdin w_fs w_trace].
    rewrite sent_conversations_app. simpl. split; [done|]. split; [done|].
    rewrite app_nil_r. lia.
  - apply Forall_cons_1 in Hfit as [Hline Hfit].
    destruct (Hmodel (conversation st
                      ++ [NewUserMessage [NewTextBlock (bufio_dropCR line)]]))
      as (message & Hinfer & Hnone).
    destruct (await_model_response_asks_user a _ message
                {| w_fs := w_fs w; w_stdin := lines ++ tail;
                   w_trace := w_trace w ++ [EvPrompt] |} Hinfer Hnone)
      as (w1 & Hresp & Hfs & Hstdin1 & _).
    cbn [w_fs w_stdin] in Hfs, Hstdin1.
    pose proof (await_model_response_sent_conversations a
                  (conversation st
                   ++ [NewUserMessage [NewTextBlock (bufio_dropCR line)]])
                  {| w_fs := w_fs w; w_stdin := lines ++ tail;
                     w_trace := w_trace w ++ [EvPrompt] |}) as Hsent.
    rewrite Hresp in Hsent. cbn [snd w_trace] in Hsent.
    destruct (IH tail
                 {| conversation :=
                      (conversation st
                       ++ [NewUserMessage [NewTextBlock (bufio_dropCR line)]])
                      ++ [Message_ToParam message];
                    readUserInput := true |} w1 eq_refl Hstdin1 Hfit Hstops)
      as (w' & Hloop & Hleft & Hfs' & Hcount).
    exists w'. split; [|split; [done|split]].
    + change (length (line :: lines)) with (S (length lines)).
      rewrite loop_S, (iteration_reads_line a st w line (lines ++ tail))
        by done.
      rewrite Hresp. exact Hloop.
    + by rewrite Hfs', Hfs.
    + rewrite Hcount, Hsent, !length_app, sent_conversations_app, length_app.
      simpl. lia.
Qed.

Section Main_properties.
Context {unmarshal_ReadFileInput : Unmarshal ReadFileInput}.
Context {unmarshal_ListFilesInput : Unmarshal ListFilesInput}.
Context {unmarshal_EditFileInput : Unmarshal EditFileInput}.
Context {unmarshal_RipGrepInput : Unmarshal RipGrepInput}.
Context {marshal_strings : Marshal (list string)}.
Context {exec : Exec}.

(** X19.  With the API key set and a model that answers every request
    and never asks for a tool, [main] works through the lines of
    standard input that its scanner delivers, that is, the lines up to
    the end of the input or up to the first line of 64 KiB or more,
    which the scanner does not deliver.  Allowed one iteration per such
    line and one more, [main] ends without an error: it has called the
    model once per line, changed no file, and left unread the line the
    scanner stopped at and all that follows it. *)
Theorem main_talks_through_input os_Getenv anthropic_NewClient w lines tail :
  os_Getenv "ANTHROPIC_API_KEY" <> "" ->
  (forall sent, exists message,
      anthropic_NewClient (os_Getenv "ANTHROPIC_API_KEY") sent = Ok message /\
      tool_uses message = []) ->
  w_stdin w = lines ++ tail ->
  Forall fits_scanner lines ->
  scanner_stops tail ->
  exists w',
    main os_Getenv anthropic_NewClient (S (length lines)) w
    = (Exited None, w')
    /\ w_stdin w' = tail
    /\ w_fs w' = w_fs w
    /\ length (sent_conversations (w_trace w'))
       = (length (sent_conversations (w_trace w)) + length lines)%nat.
Proof.
  intros Hkey Hmodel Hstdin Hfit Hstops. unfold main.
  apply String.eqb_neq in Hkey. rewrite Hkey.
  destruct (loop_talks_through_input
              (NewAgent (anthropic_NewClient (os_Getenv "ANTHROPIC_API_KEY"))
                 main_getUserMessage GetTools) eq_refl Hmodel lines tail
              {| conversation := []; readUserInput := true |}
              {| w_fs := w_fs w; w_stdin := w_stdin w;
                 w_trace := w_trace w ++ [EvBanner] |} eq_refl Hstdin Hfit
              Hstops)
    as (w' & Hloop & Hleft & Hfs & Hcount).
  exists w'. unfold bind at 1. unfold Run. unfold bind at 1.
  rewrite emit_trace, Hloop. split; [done|]. split; [done|]. split; [done|].
  rewrite Hcount. cbn [w_trace]. rewrite sent_conversations_app. simpl.
  by rewrite app_nil_r.
Qed.

(** X20.  Without the API key [main] stops at once with the fatal
    message: it prompts for nothing, reads nothing and calls nothing.
    With the key and a first line that the scanner delivers, when the
    first inference call fails, [main] returns after logging that
    error, having read one line and touched no file. *)
Theorem main_fatal_paths os_Getenv anthropic_NewClient w fuel :
  (os_Getenv "ANTHROPIC_API_KEY" = "" ->
   main os_Getenv anthropic_NewClient fuel w
   = (Fatal "Error: ANTHROPIC_API_KEY environment variable not set.", w)) /\
  (os_Getenv "ANTHROPIC_API_KEY" <> "" ->
   forall line rest err,
     w_stdin w = line :: rest ->
     fits_scanner line ->
     anthropic_NewClient (os_Getenv "ANTHROPIC_API_KEY")
       [NewUserMessage [NewTextBlock (bufio_dropCR line)]] = Err err ->
     main os_Getenv anthropic_NewClient (S fuel) w
     = (Exited (Some ("Agent exited with error: error running inference: "
                      +:+ err)),
        {| w_fs := w_fs w; w_stdin := rest;
           w_trace :=
             w_trace w
             ++ [EvBanner; EvPrompt;
                 EvInference
                   [NewUserMessage [NewTextBlock (bufio_dropCR line)]]] |})).
Proof.
  split.
  - intros Hkey. unfold main. by rewrite Hkey.
  - intros Hkey line rest err Hstdin Hfits Hinfer. unfold main.
    apply String.eqb_neq in Hkey. rewrite Hkey.
    unfold bind at 1. unfold Run. unfold bind at 1. rewrite emit_trace.
    rewrite (loop_inference_error _ _ _
               [NewUserMessage [NewTextBlock (bufio_dropCR line)]]
               {| w_fs := w_fs w; w_stdin := rest;
                  w_trace := (w_trace w ++ [EvBanner]) ++ [EvPrompt] |} err).
    + cbn [w_fs w_stdin w_trace]. unfold ret. by rewrite <- !app_assoc.
    + unfold await_user_input. cbn [readUserInput getUserMessage NewAgent].
      unfold bind. rewrite emit_trace. unfold main_getUserMessage.
      cbn [w_stdin w_fs w_trace]. rewrite Hstdin.
      apply Z.ltb_lt in Hfits. by rewrite Hfits.
    + exact Hinfer.
Qed.

End Main_properties.

Lemma main_talks_through_input_witness :
  exists w',
    @main Sample.unmarshal_ReadFileInput Sample.unmarshal_ListFilesInput
      Sample.unmarshal_EditFileInput Sample.unmarshal_RipGrepInput
      Sample.marshal_strings Sample.exec
      Sample_more.env_with_key (fun _ => Sample_more.talker) 2
      Sample_more.long_second_line
    = (Exited None, w')
    /\ w_stdin w' = [Sample_more.long_line; "never read"]
    /\ w_fs w' = Sample.fs
    /\ length (sent_conversations (w_trace w')) = 1%nat.
Proof.
  apply (@main_talks_through_input
           Sample.unmarshal_ReadFileInput Sample.unmarshal_ListFilesInput
           Sample.unmarshal_EditFileInput Sample.unmarshal_RipGrepInput
           Sample.marshal_strings Sample.exec
           Sample_more.env_with_key (fun _ => Sample_more.talker)
           Sample_more.long_second_line ["hello"]
           [Sample_more.long_line; "never read"]).
  - discriminate.
  - intros sent. by exists Sample.second_response.
  - reflexivity.
  - apply Forall_singleton. reflexivity.
  - intros Hfits. vm_compute in Hfits. discriminate.
Defined.

Lemma main_fatal_paths_witness :
  @main Sample.unmarshal_ReadFileInput Sample.unmarshal_ListFilesInput
    Sample.unmarshal_EditFileInput Sample.unmarshal_RipGrepInput
    Sample.marshal_strings Sample.exec
    Sample_more.env_without_key (fun _ => Sample_more.talker) 3
    Sample_more.two_lines
  = (Fatal "Error: ANTHROPIC_API_KEY environment variable not set.",
     Sample_more.two_lines) /\
  @main Sample.unmarshal_ReadFileInput Sample.unmarshal_ListFilesInput
    Sample.unmarshal_EditFileInput Sample.unmarshal_RipGrepInput
    Sample.marshal_strings Sample.exec
    Sample_more.env_with_key (fun _ => Sample_more.failing_client) 3
    Sample_more.two_lines
  = (Exited (Some "Agent exited with error: error running inference: status 529"),
     {| w_fs := Sample.fs; w_stdin := ["thanks"];
        w_trace :=
          [EvBanner; EvPrompt;
           EvInference [NewUserMessage [NewTextBlock "hello"]]] |}).
Proof.
  split.
  - by apply (@main_fatal_paths
                Sample.unmarshal_ReadFileInput Sample.unmarshal_ListFilesInput
                Sample.unmarshal_EditFileInput Sample.unmarshal_RipGrepInput
                Sample.marshal_strings Sample.exec
                Sample_more.env_without_key (fun _ => Sample_more.talker)
                Sample_more.two_lines 3).
  - apply (proj2 (@main_fatal_paths
                Sample.unmarshal_ReadFileInput Sample.unmarshal_ListFilesInput
                Sample.unmarshal_EditFileInput Sample.unmarshal_RipGrepInput
                Sample.marshal_strings Sample.exec
                Sample_more.env_with_key (fun _ => Sample_more.failing_client)
                Sample_more.two_lines 2) ltac:(discriminate)
             "hello" ["thanks"] "status 529" eq_refl eq_refl eq_refl).
Defined.

Lemma shown_texts_app trace1 trace2 :
  shown_texts (trace1 ++ trace2) = shown_texts trace1 ++ shown_texts trace2.
Proof.
  induction trace1 as [|e trace1 IH]; [done|].
  destruct e; simpl; by rewrite IH.
Qed.

Lemma executeTool_shown_texts a id name input w :
  shown_texts (w_trace (snd (executeTool a id name input w)))
  = shown_texts (w_trace w).
Proof.
  destruct (lookup_tool (tools a) name) as [toolDef|] eqn:Hfound.
  - destruct (Function toolDef input (w_fs w)) as [[response|err] fs'] eqn:Hrun.
    + rewrite (executeTool_Ok _ _ _ _ _ _ _ _ Hfound Hrun). simpl.
      by rewrite shown_texts_app, app_nil_r.
    + rewrite (executeTool_Err _ _ _ _ _ _ _ _ Hfound Hrun). simpl.
      by rewrite shown_texts_app, app_nil_r.
  - rewrite (executeTool_not_found _ _ _ _ _ Hfound). simpl.
    by rewrite shown_texts_app, app_nil_r.
Qed.

Lemma range_Content_shown_texts a contents :
  forall toolResults w,
    shown_texts (w_trace (snd (range_Content a contents toolResults w)))
    = shown_texts (w_trace w)
      ++ map cb_Text
           (List.filter (fun content => String.eqb (cb_Type content) "text")
              contents).
Proof.
  induction contents as [|content contents IH]; intros toolResults w.
  - simpl. by rewrite app_nil_r.
  - rewrite range_Content_cons. cbn [List.filter].
    destruct (String.eqb (cb_Type content) "text").
    + unfold bind. rewrite emit_trace, IH. cbn [w_trace map].
      by rewrite shown_texts_app, <- app_assoc.
    + destruct (String.eqb (cb_Type content) "tool_use"); [|apply IH].
      unfold bind. rewrite emit_trace.
      match goal with
      | |- context [executeTool a ?id ?name ?input ?w0] =>
          pose proof (executeTool_shown_texts a id name input w0) as Hexec;
          destruct (executeTool a id name input w0) as [result w1]
      end.
      rewrite IH. simpl in Hexec. rewrite Hexec. cbn [w_trace].
      by rewrite shown_texts_app, app_nil_r.
Qed.

(** X21.  An iteration shows the texts of the [text] blocks of the
    response, each once and in the order of the blocks, also when tool
    calls lie between them, and shows no other text of the model. *)
Theorem await_model_response_shows_texts a sent message w :
  runInference a sent = Ok message ->
  shown_texts (w_trace (snd (await_model_response a sent w)))
  = shown_texts (w_trace w) ++ texts message.
Proof.
  intros Hinfer. unfold await_model_response. rewrite Hinfer.
  unfold bind at 1. rewrite emit_trace. unfold bind.
  match goal with
  | |- context [range_Content a (Content message) [] ?w0] =>
      pose proof (range_Content_shown_texts a (Content message) [] w0)
        as Hrange;
      destruct (range_Content a (Content message) [] w0) as [toolResults w1]
  end.
  simpl in Hrange.
  destruct (length toolResults =? 0)%nat; simpl; rewrite Hrange;
    by rewrite shown_texts_app, app_nil_r.
Qed.

Lemma await_model_response_shows_texts_witness :
  shown_texts
    (w_trace (snd (await_model_response Sample.agent Sample.greeting
                     Sample.world)))
  = ["Let me look."].
Proof.
  apply (await_model_response_shows_texts Sample.agent Sample.greeting
           Sample.first_response Sample.world).
  reflexivity.
Defined.

(* ===================================================================== *)
(** * No entry is listed twice *)

Lemma NoDup_append {A} (l k : list A) :
  List.NoDup l -> List.NoDup k -> (forall x, In x l -> ~ In x k) ->
  List.NoDup (l ++ k).
Proof.
  intros Hl Hk Hdisjoint. induction Hl as [|x l Hx Hl IH]; [done|].
  simpl. apply List.NoDup_cons.
  - rewrite in_app_iff. intros [Hin|Hin]; [done|].
    by apply (Hdisjoint x); [left|].
  - apply IH. intros y Hy. apply Hdisjoint. by right.
Qed.

Lemma NoDup_map_injective {A B} (f : A -> B) (l : list A) :
  (forall x y, f x = f y -> x = y) -> List.NoDup l -> List.NoDup (map f l).
Proof.
  intros Hinj Hl. induction Hl as [|x l Hx Hl IH]; [apply List.NoDup_nil|].
  simpl. apply List.NoDup_cons; [|done].
  rewrite in_map_iff. intros (y & Heq & Hy). apply Hinj in Heq. by subst.
Qed.

Lemma distinct_cons name names :
  distinct (name :: names) = true -> ~ In name names /\ distinct names = true.
Proof.
  simpl. intros H. apply andb_prop in H as [Hname Hnames].
  split; [|done]. intros Hin. apply negb_true_iff in Hname.
  assert (existsb (String.eqb name) names = true) as Hex.
  { apply existsb_exists. exists name. split; [done|apply String.eqb_refl]. }
  by rewrite Hex in Hname.
Qed.

Lemma concat_app_nonempty sep rel1 rel2 :
  rel1 <> [] -> rel2 <> [] ->
  String.concat sep (rel1 ++ rel2)
  = String.concat sep rel1 +:+ sep +:+ String.concat sep rel2.
Proof.
  intros H1 H2. induction rel1 as [|a rel1 IH]; [done|].
  destruct rel1 as [|b rel1].
  - destruct rel2 as [|c rel2]; [done|]. reflexivity.
  - change ((a :: b :: rel1) ++ rel2) with (a :: (b :: rel1) ++ rel2).
    change ((b :: rel1) ++ rel2) with (b :: rel1 ++ rel2) at 1.
    rewrite !concat_cons_cons.
    change (b :: rel1 ++ rel2) with ((b :: rel1) ++ rel2).
    rewrite IH by done. by rewrite !append_assoc.
Qed.

Lemma entry_name_app rel1 rel2 n :
  rel1 <> [] -> rel2 <> [] ->
  entry_name (rel1 ++ rel2) n
  = String.concat "/" rel1 +:+ "/" +:+ entry_name rel2 n.
Proof.
  intros H1 H2. unfold entry_name. rewrite concat_app_nonempty by done.
  destruct (IsDir n); by rewrite ?append_assoc.
Qed.

(** The listing below an entry found at [rel1 ++ rel2] is the listing
    below the entry found at [rel2], each name behind the names of
    [rel1]. *)
Lemma listing_app rel1 n :
  rel1 <> [] ->
  forall rel2,
    listing (rel1 ++ rel2) n
    = map (fun s => String.concat "/" rel1 +:+ "/" +:+ s) (listing rel2 n).
Proof.
  intros H1.
  induction n as [readable writable content|listable names IH]
    using node_tree_ind; intros rel2; [done|].
  simpl listing. induction names as [|[name child] names IHnames]; [done|].
  apply Forall_cons_1 in IH as [IHchild IH]. simpl in IHchild.
  cbn [flat_map fst snd]. rewrite map_app. cbn [map].
  rewrite <- (IHnames IH), <- !app_assoc.
  rewrite (IHchild (rel2 ++ [name])).
  rewrite entry_name_app; [done|done|by destruct rel2].
Qed.

Lemma listing_below name child :
  listing [name] child
  = map (fun s => name +:+ "/" +:+ s) (listing [] child).
Proof. exact (listing_app [name] child ltac:(done) []). Qed.

Lemma listed_names_nonempty n :
  well_named n = true ->
  forall s, In s (listing [] n) -> s <> "".
Proof.
  intros Hnamed s Hin.
  apply (In_listing n [] s) in Hin as (rel & m & Hreach & ->). simpl app.
  destruct (reachable_valid_names _ _ _ Hnamed Hreach) as [Hrel Hvalid].
  destruct (concat_valid_names_no_trailing_separator rel Hrel Hvalid)
    as [Hne _].
  unfold entry_name. destruct (IsDir m); [|done].
  destruct (String.concat "/" rel); [done|]. by rewrite append_String.
Qed.

(** A name that holds no separator is determined by any string that
    begins with it and goes on, if at all, with a separator. *)
Lemma first_name_unique a b t u :
  has_separator a = false -> has_separator b = false ->
  (t = "" \/ exists t', t = String "/" t') ->
  (u = "" \/ exists u', u = String "/" u') ->
  a +:+ t = b +:+ u -> a = b.
Proof.
  revert b. induction a as [|c a IH]; intros [|d b] Ha Hb Ht Hu Heq.
  - done.
  - rewrite append_empty_l, append_String in Heq.
    destruct Ht as [->|[t' ->]]; [discriminate|].
    injection Heq as <- _. simpl in Hb. discriminate.
  - rewrite append_empty_l, append_String in Heq.
    destruct Hu as [->|[u' ->]]; [discriminate|].
    injection Heq as -> _. simpl in Ha. discriminate.
  - rewrite !append_String in Heq. injection Heq as -> Heq.
    simpl in Ha, Hb. apply orb_false_elim in Ha as [_ Ha].
    apply orb_false_elim in Hb as [_ Hb]. f_equal. by eapply IH.
Qed.

(** What the names listed for one entry of a directory look like. *)
Lemma In_entry_block name child s :
  In s (entry_name [name] child :: listing [name] child) ->
  exists t, s = name +:+ t /\ (t = "" \/ exists t', t = String "/" t').
Proof.
  intros [<-|Hin].
  - unfold entry_name. simpl String.concat. destruct (IsDir child).
    + exists "/". split; [done|]. right. by exists "".
    + exists "". split; [by rewrite append_empty_r|by left].
  - rewrite listing_below in Hin.
    apply in_map_iff in Hin as (s' & <- & _).
    exists ("/" +:+ s'). split; [done|]. right. by exists s'.
Qed.

Lemma listing_NoDup n :
  well_named n = true ->
  distinct_names n = true ->
  List.NoDup (listing [] n).
Proof.
  induction n as [readable writable content|listable names IH]
    using node_tree_ind; intros Hnamed Hdistinct; [apply List.NoDup_nil|].
  simpl in Hnamed, Hdistinct. apply andb_prop in Hdistinct as [Hfst Hbelow].
  simpl listing. clear listable.
  induction names as [|[name child] names IHnames]; [apply List.NoDup_nil|].
  apply Forall_cons_1 in IH as [IHchild IH]. simpl in IHchild.
  simpl in Hnamed, Hbelow, Hfst.
  apply andb_prop in Hnamed as [Hentry Hnamed].
  apply andb_prop in Hentry as [Hname Hchild].
  apply andb_prop in Hbelow as [Hchild_distinct Hbelow].
  apply distinct_cons in Hfst as [Hfresh Hfst].
  cbn [flat_map fst snd app].
  change (entry_name [name] child
          :: listing [name] child
             ++ flat_map
                  (fun entry =>
                     entry_name [fst entry] (snd entry)
                     :: listing [fst entry] (snd entry)) names)
    with ((entry_name [name] child :: listing [name] child)
          ++ flat_map
               (fun entry =>
                  entry_name [fst entry] (snd entry)
                  :: listing [fst entry] (snd entry)) names).
  assert (Hsep : has_separator name = false).
  { unfold valid_name in Hname. apply andb_prop in Hname as [_ Hname].
    by apply negb_true_iff in Hname. }
  apply NoDup_append; [|by apply IHnames|].
  - apply List.NoDup_cons.
    + rewrite listing_below.
      rewrite in_map_iff. intros (s & Heq & Hin).
      pose proof (listed_names_nonempty child Hchild s Hin) as Hne.
      unfold entry_name in Heq. simpl String.concat in Heq.
      destruct (IsDir child) eqn:Hdir.
      * apply (inj (String.app name)) in Heq.
        change ("/" +:+ s) with (String "/" s) in Heq.
        change ("/" : string) with (String "/" "") in Heq.
        by injection Heq as ->.
      * destruct child; [|discriminate]. done.
    + rewrite listing_below.
      apply NoDup_map_injective; [|by apply IHchild].
      intros x y Heq. apply (inj (String.app _)) in Heq.
      by apply (inj (String.app _)) in Heq.
  - intros s Hin Hin'.
    apply In_entry_block in Hin as (t & -> & Ht).
    apply in_flat_map in Hin' as ([name' child'] & Hentry' & Hin').
    apply In_entry_block in Hin' as (u & Heq & Hu).
    rewrite forallb_forall in Hnamed. pose proof (Hnamed _ Hentry') as Hv.
    simpl in Hv. apply andb_prop in Hv as [Hname' _].
    unfold valid_name in Hname'. apply andb_prop in Hname' as [_ Hsep'].
    apply negb_true_iff in Hsep'.
    pose proof (first_name_unique name name' t u Hsep Hsep' Ht Hu Heq) as ->.
    apply Hfresh. apply in_map_iff. by exists (name', child').
Qed.

Section ListFiles_once.
Context {unmarshal_ListFilesInput : Unmarshal ListFilesInput}.
Context {marshal_strings : Marshal (list string)}.

(** X22.  For a traversable directory in which no directory holds two
    entries of one name, the listing [list_files] returns names no
    entry twice. *)
Theorem ListFiles_lists_each_entry_once input fs e listable names :
  json_Unmarshal input = Ok e ->
  fs !! ListFiles_dir e = Some (Dir listable names) ->
  traversable (Dir listable names) = true ->
  well_named (Dir listable names) = true ->
  distinct_names (Dir listable names) = true ->
  ListFiles input fs
  = (ListFiles_result (listing [] (Dir listable names)), fs) /\
  List.NoDup (listing [] (Dir listable names)).
Proof.
  intros Hdec Hroot Htrav Hnamed Hdistinct. split.
  - unfold ListFiles. rewrite Hdec. fold (ListFiles_dir e).
    unfold filepath_Walk. rewrite Hroot.
    pose proof (walk_listing (ListFiles_dir e) (Dir listable names) [] [])
      as Hwalk.
    change (walk_path (ListFiles_dir e) []) with (ListFiles_dir e) in Hwalk.
    rewrite Hwalk by done. simpl app. unfold ListFiles_result.
    by destruct (json_Marshal _).
  - by apply listing_NoDup.
Qed.

End ListFiles_once.

Lemma ListFiles_lists_each_entry_once_witness :
  List.NoDup (listing [] Sample.project).
Proof.
  apply (@ListFiles_lists_each_entry_once Sample.unmarshal_ListFilesInput
           Sample.marshal_strings (Sample_more.read_input "project") Sample.fs
           {| ListFilesInput_Path := "project" |} true
           [("a.txt", File true true "alpha");
            ("sub", Dir true [("b.txt", File true true "beta")])]);
    reflexivity.
Defined.
